(** * The X6 cell collection: membership, ordering and change notification

    A shallow embedding of the [Collection] class (an ordered, id-indexed
    container of graph cells that republishes change events) together with
    the properties its specification states about it.

    Conventions of the embedding:
    - a JavaScript number used as an index is an integer, [Z];
    - a value that is [null] or [undefined] is [None]; in an option bag a
      key that is absent and an own key that holds [undefined] are told
      apart ([Options.key]), since object spread copies the latter;
    - the plain object used as the id index is a [gmap string _]; ids are
      assumed not to name a property inherited from [Object.prototype];
    - cells and their property stores are heap objects: a cell carries its
      object identity [Cell.oid], and its store is a location into the
      table [Collection.stores], so that aliasing of stores is visible;
    - [trigger] appends to the log [Collection.events]; what listeners do
      when they are called is outside the model.  So is what a member
      does when its store is written: the events it then fires, and the
      collection's reactions to them through its own subscriptions, are
      not part of [add].  The statements about the order of the cells and
      about the event log are therefore made for calls that write no
      store, that is, that merge nothing ([Collection.add_merges_nothing]);
    - a comparison function is a pure function to [Z]; when it is not a
      consistent comparator in the sense of the language, the order
      [Array.prototype.sort] produces is implementation-defined, and the
      statements about the order it produces assume consistency
      ([JsArray.consistent_comparison]). *)

From stdpp Require Import base numbers list strings gmap sorting.

Local Open Scope Z_scope.

(** ** Option bags *)

Module Options.

(** An optional boolean key of an option bag: the bag has no such key, or
    it has the key and the key holds [undefined] or a boolean. *)
Inductive key : Type :=
  | Absent
  | Undefined
  | Is (b : bool).

#[global] Instance key_eq_dec : EqDecision key.
Proof. solve_decision. Defined.

(** [Cell.SetOptions], [Collection.RemoveOptions] and
    [Collection.AddOptions] share one shape; [rest] holds the
    pass-through keys. *)
Record t := mk {
  silent : key;
  sort : key;
  merge : key;
  disconnectEdges : key;
  rest : list (string * string);
}.

(** The object literal [{}]. *)
Definition empty : t := mk Absent Absent Absent Absent [].

(** JavaScript truthiness of an optional boolean key. *)
Definition truthy (k : key) : bool :=
  match k with
  | Is true => true
  | _ => false
  end.

(** The key [k] of [{ k: b, ...o }]: an own key of [o] overrides the
    default [b], also when it holds [undefined]. *)
Definition spread_default (b : bool) (k : key) : key :=
  match k with
  | Absent => Is b
  | _ => k
  end.

(** [{ merge: false, ...o }] *)
Definition spread_merge_false (o : option t) : t :=
  match o with
  | None => mk Absent Absent (Is false) Absent []
  | Some o =>
      mk (silent o) (sort o) (spread_default false (merge o))
         (disconnectEdges o) (rest o)
  end.

(** [{ silent: true, ...o }] *)
Definition spread_silent_true (o : t) : t :=
  mk (spread_default true (silent o)) (sort o) (merge o)
     (disconnectEdges o) (rest o).

(** The option bag [{ silent: true }]. *)
Definition silently : t := mk (Is true) Absent Absent Absent [].

End Options.

(** ** Cells *)

Module Cell.

(** A cell object: its identity, its immutable [id], the location of its
    property store and whether it is an edge. *)
Record t := mk {
  oid : nat;
  id : string;
  store : nat;
  isEdge : bool;
}.

#[global] Instance eq_dec : EqDecision t.
Proof. solve_decision. Defined.

End Cell.

(** [Cell | Cell[]] and the like. *)
Inductive OneOrMany (A : Type) : Type :=
  | One (a : A)
  | Many (l : list A).
Arguments One {A} a.
Arguments Many {A} l.

(** A list without its repeats: each element stays at its first
    occurrence. *)
Fixpoint first_occurrences {A : Type} `{EqDecision A} (l : list A) : list A :=
  match l with
  | [] => []
  | x :: l' => x :: filter (λ y, y ≠ x) (first_occurrences l')
  end.

(** [Array.isArray(cells) ? cells : [cells]] *)
Definition entities_of {A : Type} (cells : OneOrMany A) : list A :=
  match cells with
  | One a => [a]
  | Many l => l
  end.

(** ** Arrays *)

(** The built-in array operations the collection uses. *)
Module JsArray.

(** The start position [Array.prototype.splice] works from: a negative
    [start] counts from the end, and the result is clamped to
    [[0, len]]. *)
Definition splice_start (len start : Z) : Z :=
  if start <? 0 then Z.max (len + start) 0 else Z.min start len.

(** [l.splice(start, deleteCount, ...items)], the array afterwards. *)
Definition splice {A : Type} (l : list A) (start deleteCount : Z)
    (items : list A) : list A :=
  let len := Z.of_nat (List.length l) in
  let s := splice_start len start in
  let d := Z.min (Z.max deleteCount 0) (len - s) in
  take (Z.to_nat s) l ++ items ++ drop (Z.to_nat (s + d)) l.

(** [l.indexOf(x)]: the first position holding [x], or [-1]. *)
Fixpoint indexOf {A : Type} `{EqDecision A} (l : list A) (x : A) : Z :=
  match l with
  | [] => -1
  | y :: l' =>
      if decide (y = x) then 0
      else let i := indexOf l' x in if i <? 0 then -1 else i + 1
  end.

(** [l[index]] for an integer [index]: [undefined] out of range. *)
Definition nth_z {A : Type} (l : list A) (index : Z) : option A :=
  if index <? 0 then None else l !! Z.to_nat index.

(** Insertion into a list ordered by [le], before the first element
    that [x] does not exceed. *)
Fixpoint insert_by {A : Type} (le : A → A → bool) (x : A) (l : list A)
    : list A :=
  match l with
  | [] => [x]
  | y :: l' => if le x y then x :: l else y :: insert_by le x l'
  end.

(** A stable sort by the order [le]. *)
Definition stable_sort {A : Type} (le : A → A → bool) (l : list A)
    : list A :=
  foldr (insert_by le) [] l.

(** A consistent comparator in the sense of the language: [=CF] is an
    equivalence and [<CF] and [>CF] are transitive.  (That a call always
    returns the same number and changes nothing holds of a function to
    [Z].) *)
Definition consistent_comparison {A : Type} (comparefn : A → A → Z) : Prop :=
  (∀ a, comparefn a a = 0)
  ∧ (∀ a b, comparefn a b = 0 → comparefn b a = 0)
  ∧ (∀ a b c, comparefn a b = 0 → comparefn b c = 0 → comparefn a c = 0)
  ∧ (∀ a b c, comparefn a b < 0 → comparefn b c < 0 → comparefn a c < 0)
  ∧ (∀ a b c, comparefn a b > 0 → comparefn b c > 0 → comparefn a c > 0).

(** [l.sort(comparefn)]: [Array.prototype.sort] is stable, and puts [a]
    before [b] when [comparefn(a, b) <= 0].  For a consistent comparator
    this is the order the language prescribes; for any other the order is
    implementation-defined, and the result is only known to be a
    permutation. *)
Definition sort_with {A : Type} (comparefn : A → A → Z) (l : list A)
    : list A :=
  stable_sort (λ a b, comparefn a b <=? 0) l.

End JsArray.

(** The array helpers of the module [util]. *)
Module ArrayExt.

(** Lexicographic comparison of two key vectors, ascending. *)
Fixpoint lex_leb (xs ys : list Z) : bool :=
  match xs, ys with
  | x :: xs', y :: ys' =>
      if x <? y then true else if y <? x then false else lex_leb xs' ys'
  | _, _ => true
  end.

(** Modelled from the spec: [ArrayExt.sortBy] (module [util], not part of
    the excerpt).  A stable ascending sort on the resolved property
    paths: ties on earlier keys are broken by later keys, and final ties
    keep their relative order.  [resolve x path] is the value found at
    [path] in [x]. *)
Definition sortBy {A : Type} (resolve : A → string → Z) (l : list A)
    (paths : list string) : list A :=
  JsArray.stable_sort (λ a b, lex_leb (resolve a <$> paths) (resolve b <$> paths)) l.

End ArrayExt.

(** ** Comparators and the property store *)

(** [string | string[] | ((a: Cell, b: Cell) => number)].  A comparison
    function reads the cells' properties, hence the table of stores. *)
Inductive Comparator (Store : Type) : Type :=
  | ByFunction (f : (nat → Store) → Cell.t → Cell.t → Z)
  | ByKey (key : string)
  | ByKeys (keys : list string).
Arguments ByFunction {Store} f.
Arguments ByKey {Store} key.
Arguments ByKeys {Store} keys.

(** The property store of a cell and the property paths of a cell are
    consumed through their interface only: [store.get()],
    [store.set(data, options)], [store.hasChanged(key)], and the value a
    property path resolves to on a cell.  The paths a collection is
    sorted by are taken to resolve to numbers on every cell. *)
Class CellStore (Store Data : Type) := {
  store_get : Store → Data;
  store_set : Store → Data → option Options.t → Store;
  store_hasChanged : Store → option (Comparator Store) → bool;
  cell_prop : (nat → Store) → Cell.t → string → Z;
}.

(** ** Events *)

(** The events the collection triggers itself, with their payloads. *)
Inductive Event : Type :=
  | EAdd (cell : Cell.t) (index : Z) (options : Options.t)
  | ERemove (cell : Cell.t) (index : Z) (options : Options.t)
  | ESort
  | EReset (options : Options.t) (previous current : list Cell.t)
  | EUpdate (added merged removed : list Cell.t) (options : Options.t).


(** ** The collection *)

Module Collection.

Section Model.

Context {Store Data : Type} `{!CellStore Store Data}.

(** The collection object ([length], [cells], [map], [comparator]) and the
    part of the heap its methods touch: the property stores of the cells
    ([stores]), the subscriptions the collection holds on its cells
    ([listeners]) and the events it has triggered, oldest first
    ([events]). *)
Record t := mk {
  length : Z;
  cells : list Cell.t;
  map : gmap string Cell.t;
  comparator : option (Comparator Store);
  stores : nat → Store;
  listeners : list (nat * string);
  events : list Event;
}.

Definition set_length (st : t) (n : Z) : t :=
  mk n (cells st) (map st) (comparator st) (stores st) (listeners st)
     (events st).
Definition set_cells (st : t) (cs : list Cell.t) : t :=
  mk (length st) cs (map st) (comparator st) (stores st) (listeners st)
     (events st).
Definition set_map (st : t) (m : gmap string Cell.t) : t :=
  mk (length st) (cells st) m (comparator st) (stores st) (listeners st)
     (events st).
Definition set_stores (st : t) (h : nat → Store) : t :=
  mk (length st) (cells st) (map st) (comparator st) h (listeners st)
     (events st).
Definition set_listeners (st : t) (ls : list (nat * string)) : t :=
  mk (length st) (cells st) (map st) (comparator st) (stores st) ls
     (events st).

(** [this.trigger(name, payload)] *)
Definition trigger (st : t) (e : Event) : t :=
  mk (length st) (cells st) (map st) (comparator st) (stores st)
     (listeners st) (events st ++ [e]).

(** Modelled from the spec: the subscription surface of a cell, [on] and
    [off] of the shared event emitter (not part of the excerpt).  The
    handler and the context are always this collection's, so a
    subscription is a cell and an event name; [off] detaches every
    subscription of that cell to that event. *)
Definition cell_on (st : t) (cell : Cell.t) (name : string) : t :=
  set_listeners st (listeners st ++ [(Cell.oid cell, name)]).
Definition cell_off (st : t) (cell : Cell.t) (name : string) : t :=
  set_listeners st
    (filter (λ s, s ≠ (Cell.oid cell, name)) (listeners st)).

(** [existing.store.set(data, options)]: the store object at [loc] is
    updated in place. *)
Definition store_set_at (st : t) (loc : nat) (data : Data)
    (options : option Options.t) : t :=
  set_stores st
    (λ l, if decide (l = loc) then store_set (stores st loc) data options
          else stores st l).

(** The argument of [get] and [has]: an id or a cell. *)
Inductive Key : Type :=
  | ById (s : string)
  | ByCell (c : Cell.t).

Definition get (st : t) (obj : option Key) : option Cell.t :=
  match obj with
  | None => None
  | Some k =>
      let id := match k with ById s => s | ByCell c => Cell.id c end in
      map st !! id
  end.

Definition has (st : t) (obj : option Key) : bool :=
  bool_decide (get st obj ≠ None).

Definition at_ (st : t) (index : Z) : option Cell.t :=
  let index := if index <? 0 then index + length st else index in
  JsArray.nth_z (cells st) index.

Definition first (st : t) : option Cell.t := at_ st 0.

Definition last (st : t) : option Cell.t := at_ st (-1).

Definition toArray (st : t) : list Cell.t := cells st.

Definition clean (st : t) : t :=
  set_map (set_cells (set_length st 0) []) ∅.

Definition reference (st : t) (cell : Cell.t) : t :=
  let st := set_map st (<[Cell.id cell := cell]> (map st)) in
  let st := cell_on st cell "changed" in
  let st := cell_on st cell "disposed" in
  let st := cell_on st cell "change:zIndex" in
  if Cell.isEdge cell then
    let st := cell_on st cell "change:source" in
    cell_on st cell "change:target"
  else st.

Definition unreference (st : t) (cell : Cell.t) : t :=
  let st := cell_off st cell "changed" in
  let st := cell_off st cell "disposed" in
  let st := cell_off st cell "change:zIndex" in
  let st :=
    if Cell.isEdge cell then
      let st := cell_off st cell "change:source" in
      cell_off st cell "change:target"
    else st in
  set_map st (delete (Cell.id cell) (map st)).

(** The reordering [sort] performs for each kind of comparator. *)
Definition sorted_cells (st : t) (cmp : Comparator Store) : list Cell.t :=
  match cmp with
  | ByFunction f => JsArray.sort_with (f (stores st)) (cells st)
  | ByKey key => ArrayExt.sortBy (cell_prop (stores st)) (cells st) [key]
  | ByKeys keys => ArrayExt.sortBy (cell_prop (stores st)) (cells st) keys
  end.

Definition sort (st : t) (options : option Options.t) : t :=
  let options := default Options.empty options in
  match comparator st with
  | Some cmp =>
      let st := set_cells st (sorted_cells st cmp) in
      if negb (Options.truthy (Options.silent options))
      then trigger st ESort else st
  | None => st
  end.

(** The second argument of [add]: nothing, a number, or an option bag. *)
Inductive IndexArg : Type :=
  | NoIndex
  | Index (n : Z)
  | IndexOptions (o : Options.t).

(** What the loop over the entities of [add] accumulates. *)
Record AddLoop := mkAddLoop {
  al_state : t;
  al_added : list Cell.t;
  al_merged : list Cell.t;
  al_sort : bool;
}.

(** The body of [entities.forEach(cell => ...)] in [add].  In the merge
    branch the store of the member is written; what the member and the
    collection's subscriptions to it do in reaction is not modelled. *)
Definition add_each (localOptions : Options.t) (options : option Options.t)
    (sortable : bool) (acc : AddLoop) (cell : Cell.t) : AddLoop :=
  let st := al_state acc in
  match get st (Some (ByCell cell)) with
  | Some existing =>
      if Options.truthy (Options.merge localOptions)
         && negb (bool_decide (Cell.store cell = Cell.store existing))
      then
        let st' :=
          store_set_at st (Cell.store existing)
            (store_get (stores st (Cell.store cell))) options in
        let sort' :=
          if sortable && negb (al_sort acc)
          then store_hasChanged (stores st' (Cell.store existing))
                 (comparator st')
          else al_sort acc in
        mkAddLoop st' (al_added acc) (al_merged acc ++ [existing]) sort'
      else acc
  | None =>
      mkAddLoop (reference st cell) (al_added acc ++ [cell])
        (al_merged acc) (al_sort acc)
  end.

(** [localIndex] of [add] before the two adjustments. *)
Definition add_index (st : t) (index : IndexArg) : Z :=
  match index with
  | Index n => n
  | _ => length st
  end.

(** The two adjustments of [localIndex] in [add]. *)
Definition resolve_index (len localIndex : Z) : Z :=
  let localIndex := if len <? localIndex then len else localIndex in
  if localIndex <? 0 then localIndex + (len + 1) else localIndex.

(** [localOptions] of [add]. *)
Definition add_options (index : IndexArg) (options : option Options.t)
    : Options.t :=
  match index with
  | Index _ => Options.spread_merge_false options
  | IndexOptions o => Options.spread_merge_false (Some o)
  | NoIndex => Options.spread_merge_false None
  end.

(** [this.comparator && index == null && localOptions.sort !== false] *)
Definition add_sortable (st : t) (index : IndexArg)
    (localOptions : Options.t) : bool :=
  bool_decide (comparator st ≠ None)
  && match index with NoIndex => true | _ => false end
  && negb (bool_decide (Options.sort localOptions = Options.Is false)).

(** The [add] events of a non-silent [add], one per added cell. *)
Definition add_events (localIndex : Z) (localOptions : Options.t)
    (added : list Cell.t) : list Event :=
  imap (λ i cell, EAdd cell (localIndex + Z.of_nat i) localOptions) added.

(** The state and the arrays [added] and [merged] after
    [entities.forEach] in [add]. *)
Definition add_loop (st : t) (cells_arg : OneOrMany Cell.t)
    (index : IndexArg) (options : option Options.t) : AddLoop :=
  let localOptions := add_options index options in
  foldl (add_each localOptions options (add_sortable st index localOptions))
    (mkAddLoop st [] [] false) (entities_of cells_arg).

(** The flag [sort] of [add] once the added cells are spliced in. *)
Definition add_sort_flag (st : t) (cells_arg : OneOrMany Cell.t)
    (index : IndexArg) (options : option Options.t) : bool :=
  let loop := add_loop st cells_arg index options in
  match al_added loop with
  | [] => al_sort loop
  | _ =>
      if add_sortable st index (add_options index options) then true
      else al_sort loop
  end.

Definition add (st : t) (cells_arg : OneOrMany Cell.t) (index : IndexArg)
    (options : option Options.t) : t :=
  let localIndex := resolve_index (length st) (add_index st index) in
  let localOptions := add_options index options in
  let loop := add_loop st cells_arg index options in
  let sort_flag := add_sort_flag st cells_arg index options in
  let st := al_state loop in
  let added := al_added loop in
  let merged := al_merged loop in
  let st :=
    match added with
    | [] => st
    | _ =>
        let st :=
          set_cells st (JsArray.splice (cells st) localIndex 0 added) in
        set_length st (Z.of_nat (List.length (cells st)))
    end in
  let st :=
    if sort_flag
    then sort st (Some Options.silently)
    else st in
  if negb (Options.truthy (Options.silent localOptions)) then
    let st := foldl trigger st (add_events localIndex localOptions added) in
    let st := if sort_flag then trigger st ESort else st in
    match added, merged with
    | [], [] => st
    | _, _ => trigger st (EUpdate added merged [] localOptions)
    end
  else st.

(** The body of the loop of [removeCells]. *)
Definition removeCells_each (options : Options.t)
    (acc : t * list Cell.t) (entry : option Cell.t) : t * list Cell.t :=
  let '(st, removed) := acc in
  match get st (ByCell <$> entry) with
  | None => acc
  | Some cell =>
      let index := JsArray.indexOf (cells st) cell in
      let st := set_cells st (JsArray.splice (cells st) index 1 []) in
      let st := set_length st (length st - 1) in
      let st := set_map st (delete (Cell.id cell) (map st)) in
      let st := unreference st cell in
      let st :=
        if negb (Options.truthy (Options.silent options))
        then trigger st (ERemove cell index options) else st in
      (st, removed ++ [cell])
  end.

Definition removeCells (st : t) (cells_arg : list (option Cell.t))
    (options : Options.t) : t * list Cell.t :=
  foldl (removeCells_each options) (st, []) cells_arg.

(** What [remove] returns: [removed[0]] for a single cell ([undefined]
    when nothing was removed), the array [removed] for an array. *)
Inductive Removed : Type :=
  | RemovedOne (cell : option Cell.t)
  | RemovedMany (removed : list Cell.t).

(** The entries of the argument are nullable: [pop] and [shift] pass the
    result of [at] on, under a non-null assertion. *)
Definition remove (st : t) (cells_arg : OneOrMany (option Cell.t))
    (options : option Options.t) : t * Removed :=
  let options := default Options.empty options in
  let entities := entities_of cells_arg in
  let '(st, removed) := removeCells st entities options in
  let st :=
    if negb (Options.truthy (Options.silent options))
       && bool_decide (removed ≠ [])
    then trigger st (EUpdate [] [] removed options) else st in
  (st, match cells_arg with
       | One _ => RemovedOne (head removed)
       | Many _ => RemovedMany removed
       end).

(** The collection once [reset] has detached its cells and called
    [clean]. *)
Definition cleared (st : t) : t := clean (foldl unreference st (cells st)).

Definition reset (st : t) (cells_arg : OneOrMany Cell.t)
    (options : option Options.t) : t :=
  let options := default Options.empty options in
  let previous := cells st in
  let st := cleared st in
  let st :=
    add st cells_arg (IndexOptions (Options.spread_silent_true options))
      None in
  if negb (Options.truthy (Options.silent options))
  then trigger st (EReset options previous (cells st)) else st.

Definition push (st : t) (cell : Cell.t) (options : option Options.t) : t :=
  add st (One cell) (Index (length st)) options.

Definition pop (st : t) (options : option Options.t) : t * Removed :=
  let cell := at_ st (length st - 1) in
  remove st (One cell) options.

Definition unshift (st : t) (cell : Cell.t) (options : option Options.t)
    : t :=
  add st (One cell) (Index 0) options.

Definition shift (st : t) (options : option Options.t) : t * Removed :=
  let cell := at_ st 0 in
  remove st (One cell) options.

(** [onCellZIndexChanged] and [onCellDisposed], the two subscriptions that
    act on the collection itself. *)
Definition onCellZIndexChanged (st : t) (options : option Options.t) : t :=
  sort st options.

Definition onCellDisposed (st : t) (cell : option Cell.t) : t :=
  match cell with
  | Some c => fst (remove st (One (Some c)) None)
  | None => st
  end.

(** [new Collection(cells, { comparator })] in a heap whose property stores
    are [h].  An empty string comparator is falsy and becomes [null]. *)
Definition new (h : nat → Store) (cells_arg : option (OneOrMany Cell.t))
    (cmp : option (Comparator Store)) : t :=
  let cmp :=
    match cmp with
    | Some (ByKey EmptyString) => None
    | _ => cmp
    end in
  let st := clean (mk 0 [] ∅ cmp h [] []) in
  match cells_arg with
  | Some cs => reset st cs (Some Options.silently)
  | None => st
  end.

(** The public operations that change the collection. *)
Inductive Op : Type :=
  | OpAdd (cells_arg : OneOrMany Cell.t) (index : IndexArg)
      (options : option Options.t)
  | OpRemove (cells_arg : OneOrMany (option Cell.t))
      (options : option Options.t)
  | OpReset (cells_arg : OneOrMany Cell.t) (options : option Options.t)
  | OpPush (cell : Cell.t) (options : option Options.t)
  | OpPop (options : option Options.t)
  | OpUnshift (cell : Cell.t) (options : option Options.t)
  | OpShift (options : option Options.t)
  | OpSort (options : option Options.t).

(** The collection after one public operation has returned. *)
Definition run (st : t) (op : Op) : t :=
  match op with
  | OpAdd cs index options => add st cs index options
  | OpRemove cs options => fst (remove st cs options)
  | OpReset cs options => reset st cs options
  | OpPush c options => push st c options
  | OpPop options => fst (pop st options)
  | OpUnshift c options => unshift st c options
  | OpShift options => fst (shift st options)
  | OpSort options => sort st options
  end.

(** The position at which [add] splices the added cells into [cells]. *)
Definition insert_position (st : t) (index : IndexArg) : Z :=
  JsArray.splice_start (Z.of_nat (List.length (cells st)))
    (resolve_index (length st) (add_index st index)).

(** ** The invariants of the data model *)

(** [cells], [map] and [length] describe the same membership: ids are
    unique in [cells], [map] holds exactly the cells of [cells] under
    their ids, and [length] is the number of cells. *)
Definition consistent (len : Z) (cs : list Cell.t)
    (m : gmap string Cell.t) : Prop :=
  NoDup (Cell.id <$> cs)
  ∧ (∀ id e, m !! id = Some e ↔ e ∈ cs ∧ Cell.id e = id)
  ∧ len = Z.of_nat (List.length cs).

(** Invariants 1 to 3 of the data model. *)
Definition bijection (st : t) : Prop :=
  NoDup (Cell.id <$> cells st)
  ∧ (∀ id e, map st !! id = Some e ↔ e ∈ cells st ∧ Cell.id e = id)
  ∧ length st = Z.of_nat (List.length (cells st))
  ∧ length st = Z.of_nat (size (map st)).

(** The entries of an argument of [remove] that are members of [st]. *)
Definition present (st : t) (entry : option Cell.t) : Prop :=
  get st (ByCell <$> entry) ≠ None.

(** The property paths of a key comparator. *)
Definition key_paths (cmp : Comparator Store) : option (list string) :=
  match cmp with
  | ByFunction _ => None
  | ByKey key => Some [key]
  | ByKeys keys => Some keys
  end.

(** The key vector of a cell under a key comparator. *)
Definition sort_keys (st : t) (paths : list string) (c : Cell.t) : list Z :=
  cell_prop (stores st) c <$> paths.

(** [clone()]: a new collection over a copy of [cells], with the same
    comparator, in the same heap. *)
Definition clone (st : t) : t :=
  new (stores st) (Some (Many (toArray st))) (comparator st).

(** The order a comparator sorts by: [comparator_le st cmp a b] when [a]
    need not come after [b]. *)
Definition comparator_le (st : t) (cmp : Comparator Store)
    (a b : Cell.t) : bool :=
  match cmp with
  | ByFunction f => f (stores st) a b <=? 0
  | ByKey key =>
      ArrayExt.lex_leb (sort_keys st [key] a) (sort_keys st [key] b)
  | ByKeys keys =>
      ArrayExt.lex_leb (sort_keys st keys a) (sort_keys st keys b)
  end.

(** A function comparator is consistent on the current stores when it
    is a consistent comparator in the sense of the language; a key
    comparator always is. *)
Definition consistent_comparator (st : t) (cmp : Comparator Store) : Prop :=
  match cmp with
  | ByFunction f => JsArray.consistent_comparison (f (stores st))
  | _ => True
  end.

(** A call of [add] merges nothing when its loop records no member as
    merged, so that no store is written during the call. *)
Definition add_merges_nothing (st : t) (cells_arg : OneOrMany Cell.t)
    (index : IndexArg) (options : option Options.t) : Prop :=
  al_merged (add_loop st cells_arg index options) = [].

(** What an entry of an argument of [remove] resolves to in [st]. *)
Definition resolve (st : t) (entry : option Cell.t) : option Cell.t :=
  get st (ByCell <$> entry).

End Model.

Arguments t Store : clear implicits.
Arguments AddLoop Store : clear implicits.

End Collection.

(** ** A concrete property store *)

Module Sample.

(** A small property store for running the model: the data is an
    association list, [changed] lists the keys whose value the last [set]
    changed, and [received] is the option bag the last [set] was given. *)
Record Store := mkStore {
  data : list (string * Z);
  changed : list string;
  received : option Options.t;
}.

Fixpoint lookup_key (k : string) (d : list (string * Z)) : option Z :=
  match d with
  | [] => None
  | (k', v) :: d' => if decide (k' = k) then Some v else lookup_key k d'
  end.

Definition set (s : Store) (d : list (string * Z)) (o : option Options.t)
    : Store :=
  mkStore (d ++ data s)
    (fst <$> filter (λ kv, lookup_key kv.1 (data s) ≠ Some kv.2) d) o.

Definition hasChanged (s : Store) (k : option (Comparator Store)) : bool :=
  match k with
  | Some (ByKey key) => bool_decide (key ∈ changed s)
  | Some (ByKeys keys) => bool_decide (Exists (λ key, key ∈ changed s) keys)
  | _ => false
  end.

(** The number a path resolves to; the sample cells hold every path they
    are sorted by. *)
Definition prop (h : nat → Store) (c : Cell.t) (path : string) : Z :=
  default 0 (lookup_key path (data (h (Cell.store c)))).

#[global] Instance cell_store : CellStore Store (list (string * Z)) := {
  store_get := data;
  store_set := set;
  store_hasChanged := hasChanged;
  cell_prop := prop;
}.

(** Three nodes [a], [b], [c] with their own stores, and a second object
    [a'] with the id of [a] and a store of its own. *)
Definition a : Cell.t := Cell.mk 1 "a" 1 false.
Definition b : Cell.t := Cell.mk 2 "b" 2 false.
Definition c : Cell.t := Cell.mk 3 "c" 3 false.
Definition a' : Cell.t := Cell.mk 4 "a" 4 false.

(** The stores: [zIndex] is 2 for [a], 1 for [b], 3 for [c], 5 for [a']
    and 0 for every other store. *)
Definition heap (l : nat) : Store :=
  match l with
  | 1%nat => mkStore [("zIndex", 2)] [] None
  | 2%nat => mkStore [("zIndex", 1)] [] None
  | 3%nat => mkStore [("zIndex", 3)] [] None
  | 4%nat => mkStore [("zIndex", 5)] [] None
  | _ => mkStore [("zIndex", 0)] [] None
  end.

(** Comparison of two cells by [zIndex], as a function comparator. *)
Definition by_zIndex (h : nat → Store) (x y : Cell.t) : Z :=
  prop h x "zIndex" - prop h y "zIndex".

Definition empty : Collection.t Store := Collection.new heap None None.

Definition ab : Collection.t Store :=
  Collection.new heap (Some (Many [a; b])) None.

Definition empty_sorted : Collection.t Store :=
  Collection.new heap None (Some (ByFunction by_zIndex)).

Definition abc_by_zIndex : Collection.t Store :=
  Collection.new heap (Some (Many [a; b; c])) (Some (ByKey "zIndex")).

Definition abc_by_function : Collection.t Store :=
  Collection.new heap (Some (Many [a; b; c])) (Some (ByFunction by_zIndex)).

(** A node [d] that no sample collection holds; its [zIndex] is 0. *)
Definition d : Cell.t := Cell.mk 5 "d" 5 false.

(** The option bags [{ silent: true }] and [{ silent: undefined }]. *)
Definition quiet : Options.t := Options.silently.


(** The option bags [{ merge: true, deep: "1" }] and [{ silent: false }]. *)
Definition merge_deep : Options.t :=
  Options.mk Options.Absent Options.Absent (Options.Is true) Options.Absent
    [("deep", "1")].


End Sample.

(** * Properties *)

(** ** Arrays *)

Section ArrayFacts.

Context {A : Type}.
Implicit Types (l items : list A) (x y : A).

Lemma splice_start_range (len start : Z) :
  0 ≤ len → 0 ≤ JsArray.splice_start len start ≤ len.
Proof. unfold JsArray.splice_start. case_match; lia. Qed.

Lemma splice_insert l (start : Z) items :
  JsArray.splice l start 0 items =
    let p := Z.to_nat (JsArray.splice_start (Z.of_nat (List.length l)) start) in
    take p l ++ items ++ drop p l.
Proof.
  unfold JsArray.splice. cbn zeta.
  pose proof (splice_start_range (Z.of_nat (List.length l)) start).
  do 3 f_equal. lia.
Qed.

Lemma splice_insert_perm l (start : Z) items :
  JsArray.splice l start 0 items ≡ₚ l ++ items.
Proof.
  rewrite splice_insert. cbn zeta.
  set (p := Z.to_nat _).
  rewrite <- (take_drop p l) at 3.
  rewrite <- !app_assoc. apply Permutation_app_head, Permutation_app_comm.
Qed.

Lemma splice_delete l (i : nat) :
  (i < List.length l)%nat →
  JsArray.splice l (Z.of_nat i) 1 [] = delete i l.
Proof.
  intros Hi. unfold JsArray.splice, JsArray.splice_start. cbn zeta.
  rewrite delete_take_drop.
  case_match; [lia|]. simpl. f_equal; [f_equal; lia|f_equal; lia].
Qed.

Context `{EqDecision A}.

Lemma indexOf_range l x : -1 ≤ JsArray.indexOf l x < Z.of_nat (List.length l).
Proof.
  induction l as [|y l IH]; simpl; [lia|].
  case_decide; [lia|]. case_match; lia.
Qed.

Lemma indexOf_elem l x :
  x ∈ l →
  ∃ i : nat, JsArray.indexOf l x = Z.of_nat i ∧ l !! i = Some x.
Proof.
  induction l as [|y l IH]; [by intros ?%elem_of_nil|].
  intros Hx. simpl. case_decide as Hy.
  - subst. by exists 0%nat.
  - apply elem_of_cons in Hx as [->|Hx]; [done|].
    destruct (IH Hx) as (i & Hi & Hl). rewrite Hi.
    case_match; [lia|]. exists (S i). split; [lia|done].
Qed.

Lemma indexOf_not_elem l x : x ∉ l → JsArray.indexOf l x = -1.
Proof.
  induction l as [|y l IH]; [done|].
  intros Hx. apply not_elem_of_cons in Hx as [Hne Hx]. simpl.
  case_decide; [congruence|]. by rewrite IH.
Qed.

End ArrayFacts.

(** ** Sorting *)

Section SortFacts.

Context {A : Type} (le : A → A → bool).
Implicit Types (l : list A) (x y : A).

Lemma insert_by_perm x l : JsArray.insert_by le x l ≡ₚ x :: l.
Proof.
  induction l as [|y l IH]; simpl; [done|].
  case_match; [done|]. rewrite IH. apply perm_swap.
Qed.

Lemma stable_sort_perm l : JsArray.stable_sort le l ≡ₚ l.
Proof.
  induction l as [|x l IH]; simpl; [done|].
  rewrite insert_by_perm. by rewrite IH.
Qed.

Hypothesis le_total : ∀ x y, le x y = true ∨ le y x = true.
Hypothesis le_trans : ∀ x y z, le x y = true → le y z = true → le x z = true.

Lemma insert_by_sorted x l :
  StronglySorted (λ a b, le a b = true) l →
  StronglySorted (λ a b, le a b = true) (JsArray.insert_by le x l).
Proof.
  induction 1 as [|y l Hs IH Hall]; simpl.
  - repeat constructor.
  - destruct (le x y) eqn:Hxy.
    + constructor; [by constructor|].
      constructor; [done|]. eapply Forall_impl; [exact Hall|].
      intros z Hz. by eapply le_trans.
    + constructor; [done|].
      rewrite insert_by_perm. constructor; [|done].
      destruct (le_total x y); congruence.
Qed.

Lemma stable_sort_sorted l :
  StronglySorted (λ a b, le a b = true) (JsArray.stable_sort le l).
Proof.
  induction l as [|x l IH]; simpl; [constructor|].
  by apply insert_by_sorted.
Qed.

(** Stability: the elements of one class of [le]-equivalent elements keep
    their order. *)
Lemma insert_by_filter (P : A → Prop) `{∀ x, Decision (P x)} x l :
  (∀ y, P x → P y → le x y = true) →
  filter P (JsArray.insert_by le x l) = filter P (x :: l).
Proof.
  intros Hcls. induction l as [|y l IH]; simpl; [done|].
  destruct (le x y) eqn:Hxy; [done|].
  rewrite filter_cons, IH, !filter_cons.
  destruct (decide (P y)) as [Hy|Hy], (decide (P x)) as [Hx|Hx]; try done.
  specialize (Hcls y Hx Hy). congruence.
Qed.

Lemma stable_sort_filter (P : A → Prop) `{∀ x, Decision (P x)} l :
  (∀ x y, P x → P y → le x y = true) →
  filter P (JsArray.stable_sort le l) = filter P l.
Proof.
  intros Hcls. induction l as [|x l IH]; simpl; [done|].
  rewrite insert_by_filter by eauto.
  by rewrite !filter_cons, IH.
Qed.

End SortFacts.

Lemma lex_leb_refl (xs : list Z) : ArrayExt.lex_leb xs xs = true.
Proof. induction xs as [|x xs IH]; simpl; [done|]. by rewrite Z.ltb_irrefl. Qed.

Lemma lex_leb_total (xs ys : list Z) :
  ArrayExt.lex_leb xs ys = true ∨ ArrayExt.lex_leb ys xs = true.
Proof.
  revert ys. induction xs as [|x xs IH]; intros [|y ys]; simpl; auto.
  destruct (Z.ltb_spec x y), (Z.ltb_spec y x); auto; lia.
Qed.

Lemma lex_leb_trans (xs ys zs : list Z) :
  List.length xs = List.length ys →
  ArrayExt.lex_leb xs ys = true → ArrayExt.lex_leb ys zs = true →
  ArrayExt.lex_leb xs zs = true.
Proof.
  revert ys zs. induction xs as [|x xs IH]; intros [|y ys] [|z zs]; simpl;
    try done.
  intros [= Hlen].
  destruct (Z.ltb_spec x y), (Z.ltb_spec y x), (Z.ltb_spec y z),
    (Z.ltb_spec z y), (Z.ltb_spec x z), (Z.ltb_spec z x);
    try done; try lia; eauto.
Qed.

(** ** The collection *)

Import Collection.

Section CollectionFacts.

Context {Store Data : Type} `{!CellStore Store Data}.
Implicit Types (st : t Store) (c e : Cell.t) (cs : list Cell.t).
Implicit Types (m : gmap string Cell.t).

(** *** Consistency of [cells], [map] and [length] *)

Lemma consistent_map_eq len cs m :
  consistent len cs m → m = list_to_map ((λ c, (Cell.id c, c)) <$> cs).
Proof.
  intros (Hnd & Hmap & _). apply map_eq. intros i. apply option_eq. intros e.
  rewrite Hmap, <- elem_of_list_to_map.
  - rewrite list_elem_of_fmap. split.
    + intros [He <-]. by exists e.
    + by intros (c & [= -> ->] & Hc).
  - by rewrite <- list_fmap_compose.
Qed.

Lemma consistent_size len cs m :
  consistent len cs m → size m = List.length cs.
Proof.
  intros Hc. rewrite (consistent_map_eq _ _ _ Hc).
  rewrite map_size_list_to_map, ?length_fmap; [done|].
  rewrite <- list_fmap_compose. apply Hc.
Qed.

Lemma consistent_bijection st :
  consistent (length st) (cells st) (map st) ↔ bijection st.
Proof.
  unfold bijection. split.
  - intros Hc. pose proof (consistent_size _ _ _ Hc) as Hsz.
    destruct Hc as (Hnd & Hmap & Hlen).
    split; [done|]. split; [done|]. split; [done|]. lia.
  - intros (Hnd & Hmap & Hlen & _). split; [done|]. by split.
Qed.

Lemma consistent_empty : consistent 0 [] ∅.
Proof.
  split; [constructor|]. split; [|done].
  intros id e. rewrite lookup_empty. split; [done|].
  by intros [?%elem_of_nil _].
Qed.

Lemma consistent_perm len cs cs' m :
  cs ≡ₚ cs' → consistent len cs m → consistent len cs' m.
Proof.
  intros Hp (Hnd & Hmap & Hlen).
  split; [by rewrite <- Hp|]. split; [|by rewrite <- Hp].
  intros id e. rewrite <- Hp. apply Hmap.
Qed.

Lemma consistent_app len cs m added m' :
  consistent len cs m →
  NoDup (Cell.id <$> added) →
  (∀ e, e ∈ added → m !! Cell.id e = None) →
  (∀ id e, m' !! id = Some e ↔ m !! id = Some e ∨ (e ∈ added ∧ Cell.id e = id)) →
  consistent (Z.of_nat (List.length (cs ++ added))) (cs ++ added) m'.
Proof.
  intros (Hnd & Hmap & Hlen) Hnd' Hnew Hm'. split; [|split; [|done]].
  - rewrite fmap_app. apply NoDup_app. split; [done|]. split; [|done].
    intros i (e & -> & He)%list_elem_of_fmap (e' & Hi & He')%list_elem_of_fmap.
    specialize (Hnew e' He'). rewrite <- Hi in Hnew.
    assert (m !! Cell.id e = Some e) by (by apply Hmap). congruence.
  - intros id e. rewrite Hm', elem_of_app, Hmap. tauto.
Qed.

Lemma consistent_delete len cs m c :
  consistent len cs m →
  m !! Cell.id c = Some c →
  consistent (len - 1) (JsArray.splice cs (JsArray.indexOf cs c) 1 [])
    (delete (Cell.id c) m).
Proof.
  intros (Hnd & Hmap & Hlen) Hc.
  assert (c ∈ cs) as Hin by (by apply Hmap in Hc as [? _]).
  destruct (indexOf_elem cs c Hin) as (i & -> & Hi).
  pose proof (lookup_lt_Some _ _ _ Hi) as Hlt.
  rewrite splice_delete by done.
  assert (∀ e, e ∈ delete i cs ↔ e ∈ cs ∧ Cell.id e ≠ Cell.id c) as Hdel.
  { intros e. rewrite delete_take_drop.
    pose proof Hnd as Hnd2.
    rewrite <- (take_drop_middle cs i c Hi) in Hnd2.
    rewrite <- (take_drop_middle cs i c Hi) at 3.
    rewrite fmap_app, fmap_cons in Hnd2.
    apply NoDup_app in Hnd2 as (_ & Hd1 & Hd2).
    apply NoDup_cons in Hd2 as [Hd2 _].
    rewrite !elem_of_app, elem_of_cons. split.
    - intros [He|He]; (split; [tauto|]); intros Heq.
      + apply (Hd1 (Cell.id e)); [by apply list_elem_of_fmap_2|].
        rewrite Heq. left.
      + apply Hd2. rewrite <- Heq. by apply list_elem_of_fmap_2.
    - intros [[He|[->|He]] Hne]; tauto. }
  split; [|split].
  - apply (sublist_NoDup _ _ Hnd), fmap_sublist, sublist_delete.
  - intros id e. rewrite lookup_delete_Some, Hdel, Hmap. split.
    + intros (Hne & He & <-). done.
    + intros ((He & Hne) & <-). done.
  - rewrite length_delete by eauto. lia.
Qed.

(** *** Frame properties of the helpers *)

Lemma foldl_trigger st evs :
  foldl trigger st evs =
    mk (length st) (cells st) (map st) (comparator st) (stores st)
       (listeners st) (events st ++ evs).
Proof.
  revert st. induction evs as [|ev evs IH]; intros st; simpl.
  - rewrite app_nil_r. by destruct st.
  - rewrite IH. simpl. by rewrite <- app_assoc.
Qed.

Lemma sort_silent st o :
  Options.truthy (Options.silent o) = true →
  sort st (Some o) =
    match comparator st with
    | Some cmp => set_cells st (sorted_cells st cmp)
    | None => st
    end.
Proof. intros Ho. unfold sort. simpl. by rewrite Ho. Qed.

Lemma sorted_cells_perm st cmp : sorted_cells st cmp ≡ₚ cells st.
Proof. destruct cmp; apply stable_sort_perm. Qed.

Lemma reference_fields st c :
  length (reference st c) = length st
  ∧ cells (reference st c) = cells st
  ∧ map (reference st c) = <[Cell.id c := c]> (map st)
  ∧ comparator (reference st c) = comparator st
  ∧ stores (reference st c) = stores st
  ∧ events (reference st c) = events st.
Proof. unfold reference. by destruct (Cell.isEdge c). Qed.

Lemma unreference_fields st c :
  length (unreference st c) = length st
  ∧ cells (unreference st c) = cells st
  ∧ map (unreference st c) = delete (Cell.id c) (map st)
  ∧ comparator (unreference st c) = comparator st
  ∧ stores (unreference st c) = stores st
  ∧ events (unreference st c) = events st.
Proof. unfold unreference. by destruct (Cell.isEdge c). Qed.

(** *** The loop of [add] *)

Lemma add_each_frame lo o sortable (acc : AddLoop Store) c :
  let acc' := add_each lo o sortable acc c in
  length (al_state acc') = length (al_state acc)
  ∧ cells (al_state acc') = cells (al_state acc)
  ∧ comparator (al_state acc') = comparator (al_state acc)
  ∧ events (al_state acc') = events (al_state acc).
Proof.
  unfold add_each. simpl. repeat case_match; simpl; try done.
  by destruct (reference_fields (al_state acc) c) as (? & ? & _ & ? & _ & ?).
Qed.

Lemma add_each_new lo o sortable (acc : AddLoop Store) c :
  map (al_state acc) !! Cell.id c = None →
  add_each lo o sortable acc c =
    mkAddLoop (reference (al_state acc) c) (al_added acc ++ [c])
      (al_merged acc) (al_sort acc).
Proof. intros Hc. unfold add_each. simpl. by rewrite Hc. Qed.

Lemma add_each_existing lo o sortable (acc : AddLoop Store) c existing :
  map (al_state acc) !! Cell.id c = Some existing →
  let acc' := add_each lo o sortable acc c in
  al_added acc' = al_added acc ∧ map (al_state acc') = map (al_state acc).
Proof.
  intros Hc. unfold add_each. simpl. rewrite Hc. by case_match.
Qed.

Lemma add_fold_frame lo o sortable ents (acc : AddLoop Store) :
  let acc' := foldl (add_each lo o sortable) acc ents in
  length (al_state acc') = length (al_state acc)
  ∧ cells (al_state acc') = cells (al_state acc)
  ∧ comparator (al_state acc') = comparator (al_state acc)
  ∧ events (al_state acc') = events (al_state acc).
Proof.
  revert acc. induction ents as [|c ents IH]; intros acc; simpl; [done|].
  destruct (IH (add_each lo o sortable acc c)) as (-> & -> & -> & ->).
  apply add_each_frame.
Qed.

Lemma add_fold_added lo o sortable ents (acc : AddLoop Store) :
  let acc' := foldl (add_each lo o sortable) acc ents in
  ∃ new,
    al_added acc' = al_added acc ++ new
    ∧ new `sublist_of` ents
    ∧ NoDup (Cell.id <$> new)
    ∧ (∀ e, e ∈ new → map (al_state acc) !! Cell.id e = None)
    ∧ (∀ id e, map (al_state acc') !! id = Some e ↔
         map (al_state acc) !! id = Some e ∨ (e ∈ new ∧ Cell.id e = id))
    ∧ (∀ e, e ∈ ents → map (al_state acc) !! Cell.id e = None →
         Cell.id e ∈ Cell.id <$> new).
Proof.
  revert acc. induction ents as [|c ents IH]; intros acc; simpl.
  { exists []. rewrite app_nil_r. split; [done|]. split; [done|].
    split; [constructor|]. split; [by intros ? ?%elem_of_nil|].
    split; [|by intros ? ?%elem_of_nil].
    intros id e. split; [by left|]. by intros [?|[?%elem_of_nil _]]. }
  destruct (IH (add_each lo o sortable acc c))
    as (new & Hadd & Hsub & Hnd & Hnone & Hmap & Hcov).
  destruct (map (al_state acc) !! Cell.id c) as [existing|] eqn:Hc.
  - destruct (add_each_existing lo o sortable acc c existing Hc) as [Ha Hm].
    rewrite Ha, Hm in *. exists new.
    split; [done|]. split; [by apply sublist_cons|]. split; [done|].
    split; [done|]. split; [done|].
    intros e [->|He]%elem_of_cons Hnew; [congruence|]. by apply Hcov.
  - rewrite (add_each_new lo o sortable acc c Hc) in *. simpl in *.
    destruct (reference_fields (al_state acc) c) as (_ & _ & Hm & _).
    rewrite Hm in *. exists (c :: new).
    split; [by rewrite Hadd, <- app_assoc|].
    split; [by apply sublist_skip|].
    split.
    { rewrite fmap_cons. apply NoDup_cons. split; [|done].
      intros (e & Hid & He)%list_elem_of_fmap.
      specialize (Hnone e He). rewrite <- Hid in Hnone.
      by rewrite lookup_insert_eq in Hnone. }
    split.
    { intros e [->|He]%elem_of_cons; [done|].
      specialize (Hnone e He). by apply lookup_insert_None in Hnone as [? _]. }
    split.
    { intros id e. rewrite Hmap, lookup_insert_Some, elem_of_cons. split.
      - intros [[[<- <-]|[Hne Hl]]|[He Hid]]; auto.
      - intros [Hl|[[->|He] Hid]]; auto.
        left. right. split; [|done]. intros <-. congruence. }
    intros e [->|He]%elem_of_cons Hnew; [rewrite fmap_cons; left|].
    rewrite fmap_cons. destruct (decide (Cell.id e = Cell.id c)) as [->|Hne].
    + left.
    + right. apply Hcov; [done|]. by rewrite lookup_insert_ne.
Qed.

Lemma add_loop_frame st ca index options :
  let loop := add_loop st ca index options in
  length (al_state loop) = length st
  ∧ cells (al_state loop) = cells st
  ∧ comparator (al_state loop) = comparator st
  ∧ events (al_state loop) = events st.
Proof. apply add_fold_frame. Qed.

Lemma add_loop_added st ca index options :
  let loop := add_loop st ca index options in
  al_added loop `sublist_of` entities_of ca
  ∧ NoDup (Cell.id <$> al_added loop)
  ∧ (∀ e, e ∈ al_added loop → map st !! Cell.id e = None)
  ∧ (∀ id e, map (al_state loop) !! id = Some e ↔
       map st !! id = Some e ∨ (e ∈ al_added loop ∧ Cell.id e = id))
  ∧ (∀ e, e ∈ entities_of ca → map st !! Cell.id e = None →
       Cell.id e ∈ Cell.id <$> al_added loop).
Proof.
  unfold add_loop. cbn zeta.
  destruct (add_fold_added (add_options index options) options
    (add_sortable st index (add_options index options)) (entities_of ca)
    (mkAddLoop st [] [] false)) as (new & Hadd & H').
  simpl in Hadd. rewrite Hadd. exact H'.
Qed.

(** *** What [add] leaves in [cells], [map], [length] and [events] *)

Lemma add_membership st ca index options :
  let loop := add_loop st ca index options in
  let st' := add st ca index options in
  map st' = map (al_state loop)
  ∧ stores st' = stores (al_state loop)
  ∧ comparator st' = comparator st
  ∧ cells st' ≡ₚ cells st ++ al_added loop
  ∧ length st' =
      match al_added loop with
      | [] => length st
      | _ => Z.of_nat (List.length (cells st ++ al_added loop))
      end.
Proof.
  cbn zeta. unfold add. cbn zeta.
  destruct (add_loop_frame st ca index options) as (Hlen & Hcells & Hcmp & _).
  set (loop := add_loop st ca index options) in *.
  set (flag := add_sort_flag st ca index options).
  set (li := resolve_index _ _). set (lo := add_options _ _).
  set (st1 := match al_added loop with [] => al_state loop | _ => _ end).
  assert (map st1 = map (al_state loop) ∧ stores st1 = stores (al_state loop)
    ∧ comparator st1 = comparator st
    ∧ cells st1 ≡ₚ cells st ++ al_added loop
    ∧ length st1 = match al_added loop with
                   | [] => length st
                   | _ => Z.of_nat (List.length (cells st ++ al_added loop))
                   end) as (Hm1 & Hs1 & Hc1 & Hp1 & Hl1).
  { subst st1. destruct (al_added loop) as [|x added]; simpl.
    - rewrite app_nil_r, Hcells. done.
    - rewrite Hcells. split; [done|]. split; [done|]. split; [done|].
      split; [apply splice_insert_perm|].
      by rewrite splice_insert_perm. }
  clearbody st1.
  set (st2 := if flag then sort st1 _ else st1).
  assert (map st2 = map st1 ∧ stores st2 = stores st1
    ∧ comparator st2 = comparator st1
    ∧ cells st2 ≡ₚ cells st1 ∧ length st2 = length st1)
    as (Hm2 & Hs2 & Hc2 & Hp2 & Hl2).
  { subst st2. destruct flag; [|done]. rewrite sort_silent by done.
    destruct (comparator st1) as [cmp|] eqn:Hcmp1; [|done]. simpl.
    rewrite Hcmp1. split; [done|]. split; [done|]. split; [done|].
    split; [apply sorted_cells_perm|done]. }
  clearbody st2.
  rewrite <- Hm1, <- Hs1, <- Hc1, <- Hp1, <- Hl1.
  rewrite <- Hm2, <- Hs2, <- Hc2, <- Hp2, <- Hl2.
  destruct (negb _); [|done]. rewrite foldl_trigger.
  destruct flag, (al_added loop), (al_merged loop); done.
Qed.

Lemma add_consistent st ca index options :
  consistent (length st) (cells st) (map st) →
  consistent (length (add st ca index options))
    (cells (add st ca index options)) (map (add st ca index options)).
Proof.
  intros Hc.
  destruct (add_membership st ca index options) as (Hm & _ & _ & Hp & Hl).
  destruct (add_loop_added st ca index options)
    as (_ & Hnd & Hnone & Hmap & _).
  rewrite Hm. eapply consistent_perm; [symmetry; exact Hp|].
  rewrite Hl. destruct (al_added (add_loop st ca index options)) eqn:Ha.
  - rewrite app_nil_r. destruct Hc as (? & Hmap0 & ?).
    split; [done|]. split; [|done]. intros id e. rewrite Hmap, Hmap0.
    split; [|by left]. intros [?|[?%elem_of_nil _]]; done.
  - by eapply consistent_app.
Qed.

Lemma sort_events_silent st o :
  Options.truthy (Options.silent o) = true →
  events (sort st (Some o)) = events st.
Proof. intros Ho. rewrite sort_silent by done. by destruct (comparator st). Qed.

Lemma add_events_eq st ca index options :
  let loop := add_loop st ca index options in
  let lo := add_options index options in
  let li := resolve_index (length st) (add_index st index) in
  events (add st ca index options) =
    events st ++
    if Options.truthy (Options.silent lo) then []
    else
      add_events li lo (al_added loop)
      ++ (if add_sort_flag st ca index options then [ESort] else [])
      ++ match al_added loop, al_merged loop with
         | [], [] => []
         | _, _ => [EUpdate (al_added loop) (al_merged loop) [] lo]
         end.
Proof.
  cbn zeta. unfold add. cbn zeta.
  destruct (add_loop_frame st ca index options) as (_ & _ & _ & Hev).
  set (loop := add_loop st ca index options) in *.
  set (flag := add_sort_flag st ca index options).
  set (li := resolve_index _ _). set (lo := add_options _ _).
  set (st1 := match al_added loop with [] => al_state loop | _ => _ end).
  assert (events st1 = events st) as Hev1.
  { subst st1. by destruct (al_added loop). }
  clearbody st1.
  set (st2 := if flag then sort st1 _ else st1).
  assert (events st2 = events st) as Hev2.
  { subst st2. destruct flag; [|done]. by rewrite sort_events_silent. }
  clearbody st2.
  destruct (Options.truthy _); simpl; [by rewrite app_nil_r|].
  rewrite foldl_trigger.
  destruct flag, (al_added loop) as [|x added], (al_merged loop) as [|y merged];
    simpl; rewrite Hev2, <- ?app_assoc; simpl; try done.
  all: by rewrite ?app_nil_r.
Qed.

Lemma add_cells_unsorted st ca index options :
  add_sort_flag st ca index options = false →
  cells (add st ca index options) =
    let p := Z.to_nat (insert_position st index) in
    take p (cells st) ++ al_added (add_loop st ca index options)
    ++ drop p (cells st).
Proof.
  intros Hflag. unfold add. cbn zeta. rewrite Hflag.
  destruct (add_loop_frame st ca index options) as (_ & Hcells & _).
  set (loop := add_loop st ca index options) in *.
  set (st1 := match al_added loop with [] => al_state loop | _ => _ end).
  assert (cells st1 =
    take (Z.to_nat (insert_position st index)) (cells st) ++ al_added loop
    ++ drop (Z.to_nat (insert_position st index)) (cells st)) as <-.
  { subst st1. destruct (al_added loop) as [|x added] eqn:Ha; simpl.
    - by rewrite take_drop.
    - by rewrite Hcells, splice_insert. }
  clearbody st1.
  destruct (negb _); [|done]. rewrite foldl_trigger.
  by destruct (al_added loop), (al_merged loop).
Qed.

(** An [add] with a numeric index, or with an option bag as its second
    argument, never sorts. *)
Lemma add_sortable_index st index lo :
  index ≠ NoIndex → add_sortable st index lo = false.
Proof.
  intros Hi. unfold add_sortable. destruct index; [done|..];
    by rewrite andb_false_r.
Qed.

Lemma add_fold_unsortable lo o ents (acc : AddLoop Store) :
  al_sort (foldl (add_each lo o false) acc ents) = al_sort acc.
Proof.
  revert acc. induction ents as [|c ents IH]; intros acc; simpl; [done|].
  rewrite IH. unfold add_each. by repeat case_match.
Qed.

Lemma add_sort_flag_index st ca index options :
  index ≠ NoIndex → add_sort_flag st ca index options = false.
Proof.
  intros Hi. unfold add_sort_flag, add_loop. cbn zeta.
  rewrite add_sortable_index by done.
  rewrite add_fold_unsortable. by case_match.
Qed.

(** *** The loop of [removeCells] *)

Lemma removeCells_each_skip o st removed entry :
  get st (ByCell <$> entry) = None →
  removeCells_each o (st, removed) entry = (st, removed).
Proof. intros Hg. unfold removeCells_each. by rewrite Hg. Qed.

Lemma removeCells_each_found o st removed entry cell :
  get st (ByCell <$> entry) = Some cell →
  let r := removeCells_each o (st, removed) entry in
  r.2 = removed ++ [cell]
  ∧ map r.1 = delete (Cell.id cell) (map st)
  ∧ cells r.1 =
      JsArray.splice (cells st) (JsArray.indexOf (cells st) cell) 1 []
  ∧ length r.1 = length st - 1
  ∧ comparator r.1 = comparator st
  ∧ stores r.1 = stores st
  ∧ events r.1 =
      events st ++
      if Options.truthy (Options.silent o) then []
      else [ERemove cell (JsArray.indexOf (cells st) cell) o].
Proof.
  intros Hg. unfold removeCells_each. rewrite Hg. unfold unreference.
  destruct (Cell.isEdge cell), (Options.truthy _); simpl;
    rewrite delete_delete_eq, ?app_nil_r; done.
Qed.

Lemma removeCells_each_consistent o st removed entry :
  consistent (length st) (cells st) (map st) →
  let r := removeCells_each o (st, removed) entry in
  consistent (length r.1) (cells r.1) (map r.1).
Proof.
  intros Hc. cbn zeta.
  destruct (get st (ByCell <$> entry)) as [cell|] eqn:Hg.
  - destruct (removeCells_each_found o st removed entry cell Hg)
      as (_ & -> & -> & -> & _).
    apply consistent_delete; [done|].
    destruct entry as [c|]; [|done]. simpl in Hg.
    destruct Hc as (_ & Hmap & _). apply Hmap in Hg as [? ?].
    by apply Hmap.
  - by rewrite removeCells_each_skip.
Qed.

Lemma removeCells_consistent o ents st removed :
  consistent (length st) (cells st) (map st) →
  let r := foldl (removeCells_each o) (st, removed) ents in
  consistent (length r.1) (cells r.1) (map r.1).
Proof.
  revert st removed. induction ents as [|entry ents IH]; intros st removed Hc;
    cbn [foldl]; [done|].
  pose proof (removeCells_each_consistent o st removed entry Hc) as Hc'.
  destruct (removeCells_each o (st, removed) entry) as [st' removed'].
  by apply IH.
Qed.

Lemma removeCells_fold o st0 ents st removed :
  (∀ id e, map st !! id = Some e → map st0 !! id = Some e) →
  let r := foldl (removeCells_each o) (st, removed) ents in
  r = foldl (removeCells_each o) (st, removed) (filter (present st0) ents)
  ∧ ∃ new,
      r.2 = removed ++ new
      ∧ (List.length new ≤ List.length ents)%nat
      ∧ Forall (λ e, ∃ c, Some c ∈ ents ∧ map st0 !! Cell.id c = Some e
                        ∧ map r.1 !! Cell.id e = None) new
      ∧ (∀ id e, map r.1 !! id = Some e → map st !! id = Some e).
Proof.
  revert st removed. induction ents as [|entry ents IH]; intros st removed Hsub.
  { simpl. split; [done|]. exists []. rewrite app_nil_r. by repeat split. }
  cbn zeta. rewrite filter_cons. cbn [foldl].
  destruct (get st (ByCell <$> entry)) as [cell|] eqn:Hg.
  - destruct (removeCells_each_found o st removed entry cell Hg)
      as (Hr & Hm & _).
    assert (present st0 entry) as Hp.
    { destruct entry as [c|]; [|done]. unfold present. simpl in *.
      by rewrite (Hsub _ _ Hg). }
    rewrite decide_True by done. cbn [foldl].
    destruct (removeCells_each o (st, removed) entry) as [st' removed'].
    simpl in Hr, Hm. subst removed'.
    destruct (IH st' (removed ++ [cell])) as (Heq & new & Hnew & Hlen & Hall & Hsub').
    { intros id e. rewrite Hm. intros [_ ?]%lookup_delete_Some. eauto. }
    split; [done|]. exists (cell :: new).
    split; [by rewrite Hnew, <- app_assoc|]. split; [simpl; lia|].
    split.
    + constructor.
      * destruct entry as [c|]; [|done]. exists c. simpl in Hg.
        split; [left|]. split; [eauto|].
        destruct (map _ !! Cell.id cell) as [e|] eqn:He; [|done].
        apply Hsub' in He. rewrite Hm in He.
        by apply lookup_delete_Some in He as [? _].
      * eapply Forall_impl; [exact Hall|]. intros e (c & Hc & Hrest).
        exists c. split; [by right|done].
    + intros id e He. apply Hsub' in He. rewrite Hm in He.
      by apply lookup_delete_Some in He as [_ ?].
  - rewrite removeCells_each_skip by done.
    destruct (IH st removed Hsub) as (Heq & new & Hnew & Hlen & Hall & Hsub').
    split.
    + rewrite Heq. case_decide; [|done]. cbn [foldl].
      by rewrite removeCells_each_skip.
    + exists new. split; [done|]. split; [simpl; lia|]. split; [|done].
      eapply Forall_impl; [exact Hall|]. intros e (c & Hc & Hrest).
      exists c. split; [by right|done].
Qed.

(** *** Consistency is kept by every operation *)

Lemma remove_consistent st ca options :
  consistent (length st) (cells st) (map st) →
  let st' := (remove st ca options).1 in
  consistent (length st') (cells st') (map st').
Proof.
  intros Hc. unfold remove, removeCells. cbn zeta.
  pose proof (removeCells_consistent (default Options.empty options)
    (entities_of ca) st [] Hc) as Hc'.
  destruct (foldl _ _ _) as [st' removed]. simpl in Hc'.
  by destruct (_ && _).
Qed.

Lemma sort_consistent st options :
  consistent (length st) (cells st) (map st) →
  consistent (length (sort st options)) (cells (sort st options))
    (map (sort st options)).
Proof.
  intros Hc. unfold sort. destruct (comparator st) as [cmp|]; [|done].
  assert (consistent (length st) (sorted_cells st cmp) (map st)) as Hc'.
  { eapply consistent_perm; [|exact Hc]. symmetry. apply sorted_cells_perm. }
  by destruct (negb _).
Qed.

Lemma reset_cleaned st :
  let st0 := cleared st in
  length st0 = 0 ∧ cells st0 = [] ∧ map st0 = ∅
  ∧ events st0 = events st ∧ comparator st0 = comparator st.
Proof.
  cbn zeta. unfold cleared. generalize (cells st). intros cs.
  assert (events (foldl unreference st cs) = events st
    ∧ comparator (foldl unreference st cs) = comparator st) as [He Hc].
  { revert st. induction cs as [|c cs IH]; intros st; simpl; [done|].
    destruct (IH (unreference st c)) as [-> ->].
    by destruct (unreference_fields st c) as (_ & _ & _ & ? & _ & ?). }
  by rewrite <- He, <- Hc.
Qed.

Lemma reset_consistent st ca options :
  consistent (length (reset st ca options)) (cells (reset st ca options))
    (map (reset st ca options)).
Proof.
  unfold reset. cbn zeta.
  destruct (reset_cleaned st) as (Hl & Hc & Hm & _).
  set (st0 := cleared _) in *.
  pose proof (add_consistent st0 ca
    (IndexOptions (Options.spread_silent_true (default Options.empty options)))
    None) as Hadd.
  rewrite Hl, Hc, Hm in Hadd. specialize (Hadd consistent_empty).
  by destruct (negb _).
Qed.

Lemma run_consistent st op :
  consistent (length st) (cells st) (map st) →
  consistent (length (run st op)) (cells (run st op)) (map (run st op)).
Proof.
  intros Hc. destruct op; simpl.
  - by apply add_consistent.
  - by apply remove_consistent.
  - apply reset_consistent.
  - by apply add_consistent.
  - by apply remove_consistent.
  - by apply add_consistent.
  - by apply remove_consistent.
  - by apply sort_consistent.
Qed.

Lemma new_consistent h ca cmp :
  let st := new h ca cmp : t Store in
  consistent (length st) (cells st) (map st).
Proof.
  unfold new. cbn zeta. destruct ca as [cs|].
  - apply reset_consistent.
  - apply consistent_empty.
Qed.

(** *** The bijection invariant *)

(** C1. After every sequence of public operations ([add], [remove],
    [reset], [push], [pop], [unshift], [shift], [sort]) the id index and
    the cell sequence are in bijection: no two cells of [cells] share an
    id, [map] holds a cell under an id exactly when that cell is in
    [cells] with that id, and [length] is both the length of [cells] and
    the size of [map]. *)
Theorem bijection_invariant (ops : list Op) st :
  bijection st → bijection (foldl run st ops).
Proof.
  rewrite <- !consistent_bijection. revert st.
  induction ops as [|op ops IH]; intros st Hc; simpl; [done|].
  by apply IH, run_consistent.
Qed.

(** A freshly constructed collection satisfies the invariant. *)
Lemma new_bijection h ca cmp : bijection (new h ca cmp : t Store).
Proof. apply consistent_bijection, new_consistent. Qed.

(** *** Adding a member again *)

(** C4. Adding a cell whose id is already present, without [merge], does
    nothing: the collection, its index, its length and its event log are
    what they were.  In a batch, no cell with a present id is among the
    added cells, which are the only ones inserted and announced. *)
Theorem add_existing_without_merge st c existing index options :
  get st (Some (ByCell c)) = Some existing →
  Options.truthy (Options.merge (add_options index options)) = false →
  add st (One c) index options = st
  ∧ ∀ ca e, e ∈ al_added (add_loop st ca index options) →
      Cell.id e ≠ Cell.id c.
Proof.
  intros Hg Hm. split.
  - unfold add, add_sort_flag, add_loop. simpl. unfold add_each. simpl.
    simpl in Hg. rewrite Hg, Hm. simpl.
    destruct (negb _); by destruct st.
  - intros ca e He Hid.
    destruct (add_loop_added st ca index options) as (_ & _ & Hnone & _).
    specialize (Hnone e He). simpl in Hg. congruence.
Qed.

(** *** Lookup by position *)

(** C7. [at] wraps a negative index around [length], so that [at(-1)] is
    [last()] and [at(-length)] is [first()]; an index that is out of range
    after wrapping yields [null], and an index in range yields the cell at
    that position. *)
Theorem at_wraps_negative_index st :
  length st = Z.of_nat (List.length (cells st)) →
  at_ st (-1) = last st
  ∧ at_ st (- length st) = first st
  ∧ ∀ i, let j := if i <? 0 then i + length st else i in
      (0 ≤ j < length st → at_ st i = cells st !! Z.to_nat j)
      ∧ (j < 0 ∨ length st ≤ j → at_ st i = None).
Proof.
  intros Hlen. split; [done|]. split.
  - unfold first, at_. destruct (Z.ltb_spec (- length st) 0).
    + by replace (- length st + length st) with 0 by lia.
    + by replace (- length st) with 0 by lia.
  - intros i. cbn zeta. unfold at_, JsArray.nth_z.
    set (j := if i <? 0 then _ else _). split.
    + intros Hj. by destruct (Z.ltb_spec j 0); [lia|].
    + intros Hj. destruct (Z.ltb_spec j 0); [done|].
      apply lookup_ge_None. lia.
Qed.

(** *** Removing from an empty collection *)

(** C10. On an empty collection [pop] and [shift] do not fail: the lookup
    by position yields [null], [remove] skips it, the collection is
    unchanged and the call returns [undefined]. *)
Theorem pop_shift_empty st options :
  cells st = [] →
  at_ st (length st - 1) = None
  ∧ at_ st 0 = None
  ∧ pop st options = (st, RemovedOne None)
  ∧ shift st options = (st, RemovedOne None).
Proof.
  intros Hc.
  assert (∀ i, at_ st i = None) as Hat.
  { intros i. unfold at_, JsArray.nth_z. rewrite Hc. by case_match. }
  split; [done|]. split; [done|].
  unfold pop, shift. rewrite !Hat. unfold remove, removeCells. simpl.
  by rewrite andb_false_r.
Qed.

(** *** Sorting *)

(** C9. [sort] does nothing when no comparator is configured.  With a
    single-key or multi-key comparator it reorders [cells] into ascending
    order of the key vectors, later keys breaking ties on earlier ones,
    and it is stable: the cells with one and the same key vector keep
    their relative order.  Nothing but [cells] changes, and a [sort] event
    is logged unless the call is silent. *)
Theorem sort_stable_ascending st options :
  (comparator st = None → sort st options = st)
  ∧ ∀ cmp paths,
      comparator st = Some cmp → key_paths cmp = Some paths →
      let st' := sort st options in
      let keys := sort_keys st paths in
      cells st' ≡ₚ cells st
      ∧ StronglySorted
          (λ a b, ArrayExt.lex_leb (keys a) (keys b) = true) (cells st')
      ∧ (∀ kv, filter (λ c, keys c = kv) (cells st')
               = filter (λ c, keys c = kv) (cells st))
      ∧ events st' =
          events st ++
          if Options.truthy (Options.silent (default Options.empty options))
          then [] else [ESort].
Proof.
  split.
  { intros Hcmp. unfold sort. by rewrite Hcmp. }
  intros cmp paths Hcmp Hpaths. cbn zeta. unfold sort. rewrite Hcmp.
  assert (sorted_cells st cmp =
    JsArray.stable_sort
      (λ a b, ArrayExt.lex_leb (sort_keys st paths a) (sort_keys st paths b))
      (cells st)) as Hsorted.
  { destruct cmp; simpl in Hpaths; [done|..]; by injection Hpaths as <-. }
  set (le := λ a b, ArrayExt.lex_leb _ _) in Hsorted.
  assert (cells (set_cells st (sorted_cells st cmp))
    = JsArray.stable_sort le (cells st)) as Hcs by done.
  split; [|split; [|split]].
  - destruct (negb _); simpl; rewrite Hsorted; apply stable_sort_perm.
  - assert (StronglySorted (λ a b, le a b = true)
      (JsArray.stable_sort le (cells st))) as Hss.
    { apply stable_sort_sorted.
      - intros x y. apply lex_leb_total.
      - intros x y z. apply lex_leb_trans.
        unfold sort_keys. by rewrite !length_fmap. }
    destruct (negb _); simpl; by rewrite Hsorted.
  - intros kv.
    assert (filter (λ c, sort_keys st paths c = kv)
        (JsArray.stable_sort le (cells st))
      = filter (λ c, sort_keys st paths c = kv) (cells st)) as Hf.
    { apply stable_sort_filter. intros x y Hx Hy. subst le. simpl.
      rewrite Hx, Hy. apply lex_leb_refl. }
    destruct (negb _); simpl; by rewrite Hsorted.
  - destruct (Options.truthy _); simpl; by rewrite ?app_nil_r.
Qed.

(** *** Removing *)

Lemma delete_filter_ne (l : list Cell.t) (i : nat) (x : Cell.t) :
  NoDup l → l !! i = Some x → delete i l = filter (λ y, y ≠ x) l.
Proof.
  revert i. induction l as [|y l IH]; intros i Hnd Hi; [done|].
  apply NoDup_cons in Hnd as [Hy Hnd]. destruct i as [|i]; simpl in *.
  - injection Hi as ->. rewrite filter_cons_False by (intros H; by apply H).
    symmetry. clear IH Hnd. induction l as [|z l IH]; [done|].
    apply not_elem_of_cons in Hy as [Hne Hy].
    rewrite filter_cons_True by done. by rewrite IH.
  - rewrite filter_cons_True.
    + by rewrite (IH i).
    + intros ->. apply Hy. by eapply list_elem_of_lookup_2.
Qed.

Lemma filter_ne_notin (l : list Cell.t) (x : Cell.t) :
  x ∉ l → filter (λ y, y ≠ x) l = l.
Proof.
  induction l as [|z l IH]; [done|].
  intros [Hne Hx]%not_elem_of_cons.
  rewrite filter_cons_True by done. by rewrite IH.
Qed.

Lemma filter_swap (P Q : Cell.t → Prop) `{∀ x, Decision (P x)}
    `{∀ x, Decision (Q x)} (l : list Cell.t) :
  filter P (filter Q l) = filter Q (filter P l).
Proof.
  induction l as [|z l IH]; [done|].
  rewrite !(filter_cons _ z).
  destruct (decide (P z)), (decide (Q z));
    rewrite ?(filter_cons _ z); repeat case_decide; try done;
    by rewrite IH.
Qed.

Lemma filter_notin_cons (c : Cell.t) (gone l : list Cell.t) :
  filter (λ e, e ∉ gone) (filter (λ e, e ≠ c) l)
  = filter (λ e, e ∉ c :: gone) l.
Proof.
  induction l as [|z l IH]; [done|].
  rewrite !(filter_cons _ z).
  destruct (decide (z ≠ c)) as [Hne|Heq].
  - rewrite (filter_cons _ z). rewrite IH.
    destruct (decide (z ∉ gone)) as [Hz|Hz].
    + rewrite decide_True; [done|]. by apply not_elem_of_cons.
    + rewrite decide_False; [done|]. intros [_ ?]%not_elem_of_cons. done.
  - rewrite IH. rewrite decide_False; [done|].
    intros [? _]%not_elem_of_cons. done.
Qed.

Lemma first_occurrences_filter (P : Cell.t → Prop) `{∀ x, Decision (P x)}
    (l : list Cell.t) :
  first_occurrences (filter P l) = filter P (first_occurrences l).
Proof.
  induction l as [|x l IH]; [done|]. rewrite filter_cons. simpl.
  destruct (decide (P x)) as [Hx|Hx].
  - simpl. rewrite filter_cons_True by done. rewrite IH. f_equal.
    apply filter_swap.
  - rewrite filter_cons_False by done. rewrite IH.
    rewrite (filter_swap P). symmetry. apply filter_ne_notin.
    by intros [? _]%list_elem_of_filter.
Qed.

Lemma elem_of_first_occurrences (l : list Cell.t) (x : Cell.t) :
  x ∈ first_occurrences l ↔ x ∈ l.
Proof.
  induction l as [|y l IH]; [done|]. simpl.
  rewrite !elem_of_cons, list_elem_of_filter, IH.
  destruct (decide (x = y)); tauto.
Qed.

Lemma length_first_occurrences (l : list Cell.t) :
  (List.length (first_occurrences l) ≤ List.length l)%nat.
Proof.
  induction l as [|y l IH]; [done|]. simpl.
  pose proof (length_filter (λ z, z ≠ y) (first_occurrences l)). lia.
Qed.

Lemma resolve_after_remove st st1 cell (l : list (option Cell.t)) :
  consistent (length st) (cells st) (map st) →
  map st !! Cell.id cell = Some cell →
  map st1 = delete (Cell.id cell) (map st) →
  omap (resolve st1) l = filter (λ e, e ≠ cell) (omap (resolve st) l).
Proof.
  intros (_ & Hmap & _) Hcell Hm1.
  induction l as [|entry l IH]; [done|]. simpl.
  assert (resolve st1 entry =
    match resolve st entry with
    | Some x => if decide (x = cell) then None else Some x
    | None => None
    end) as ->.
  { destruct entry as [c|]; [|done]. unfold resolve. simpl. rewrite Hm1.
    destruct (decide (Cell.id c = Cell.id cell)) as [Heq|Hne].
    - rewrite Heq, lookup_delete_eq, Hcell. by rewrite decide_True.
    - rewrite lookup_delete_ne by done.
      destruct (map st !! Cell.id c) as [x|] eqn:Hx; [|done].
      rewrite decide_False; [done|]. intros ->.
      apply Hmap in Hx as [_ ?]. congruence. }
  destruct (resolve st entry) as [x|]; [|done].
  destruct (decide (x = cell)) as [->|Hne].
  - rewrite filter_cons_False by (intros Hn; by apply Hn). done.
  - rewrite filter_cons_True by done. f_equal. exact IH.
Qed.

Lemma removeCells_fold_exact o (l : list (option Cell.t)) st removed :
  consistent (length st) (cells st) (map st) →
  let r := foldl (removeCells_each o) (st, removed) l in
  let gone := first_occurrences (omap (resolve st) l) in
  r.2 = removed ++ gone
  ∧ cells r.1 = filter (λ e, e ∉ gone) (cells st)
  ∧ length r.1 = length st - Z.of_nat (List.length gone).
Proof.
  revert st removed. induction l as [|entry l IH]; intros st removed Hc.
  { cbn. rewrite app_nil_r. split; [done|]. split; [|lia].
    symmetry. clear Hc. induction (cells st) as [|x cs IHcs]; [done|].
    rewrite filter_cons_True by apply not_elem_of_nil. by rewrite IHcs. }
  cbn zeta. cbn [foldl].
  assert (omap (resolve st) (entry :: l) =
    match get st (ByCell <$> entry) with
    | Some y => y :: omap (resolve st) l
    | None => omap (resolve st) l
    end) as -> by done.
  destruct (get st (ByCell <$> entry)) as [cell|] eqn:Hg.
  - pose proof (removeCells_each_consistent o st removed entry Hc) as Hc1.
    destruct (removeCells_each_found o st removed entry cell Hg)
      as (Hr & Hm & Hcells & Hl & _).
    destruct (removeCells_each o (st, removed) entry) as [st1 removed1].
    simpl in Hr, Hm, Hcells, Hl, Hc1. subst removed1.
    assert (map st !! Cell.id cell = Some cell) as Hcell.
    { destruct entry as [c|]; [|done]. simpl in Hg.
      destruct Hc as (_ & Hmap & _). pose proof Hg as Hg'.
      apply Hmap in Hg' as [? ?]. by apply Hmap. }
    assert (cells st1 = filter (λ e, e ≠ cell) (cells st)) as Hcells1.
    { destruct Hc as (Hnd & Hmap & _).
      assert (cell ∈ cells st) as Hin by (by apply Hmap in Hcell as [? _]).
      destruct (indexOf_elem (cells st) cell Hin) as (i & Hi & Hlook).
      rewrite Hcells, Hi, splice_delete by (by eapply lookup_lt_Some).
      apply delete_filter_ne; [|done]. by apply NoDup_fmap_1 in Hnd. }
    destruct (IH st1 (removed ++ [cell]) Hc1) as (Hr' & Hcells' & Hl').
    rewrite (resolve_after_remove st st1 cell l Hc Hcell Hm) in Hr', Hcells', Hl'.
    rewrite first_occurrences_filter in Hr', Hcells', Hl'.
    cbn [first_occurrences List.length].
    split; [by rewrite Hr', <- app_assoc|]. split.
    + rewrite Hcells', Hcells1. apply filter_notin_cons.
    + rewrite Hl', Hl. lia.
  - rewrite removeCells_each_skip by done. by apply IH.
Qed.

(** C8. [remove] skips the entries that are not members, without error.
    Called with one cell it returns the member removed, or [undefined]
    (and changes nothing) when there is none; called with an array it
    returns the members actually removed, each resolved from an entry of
    the array and no longer indexed afterwards, which may be fewer than
    the entries; the absent entries have no effect at all.  On a
    collection that satisfies the invariants the array returned is
    exactly the members that the entries resolve to, in the order of the
    entries and each at its first occurrence, and these are the cells
    taken out of the sequence. *)
Theorem remove_skips_absent st options :
  (∀ entry, get st (ByCell <$> entry) = None →
     remove st (One entry) options = (st, RemovedOne None))
  ∧ (∀ c cell, get st (Some (ByCell c)) = Some cell →
       let r := remove st (One (Some c)) options in
       r.2 = RemovedOne (Some cell) ∧ map r.1 !! Cell.id cell = None)
  ∧ (∀ l, let r := remove st (Many l) options in
       r = remove st (Many (filter (present st) l)) options
       ∧ ∃ removed,
           r.2 = RemovedMany removed
           ∧ (List.length removed ≤ List.length l)%nat
           ∧ Forall (λ e, ∃ c, Some c ∈ l
                            ∧ get st (Some (ByCell c)) = Some e
                            ∧ map r.1 !! Cell.id e = None) removed)
  ∧ (bijection st →
     ∀ l, let r := remove st (Many l) options in
       let removed := first_occurrences (omap (resolve st) l) in
       r.2 = RemovedMany removed
       ∧ toArray r.1 = filter (λ e, e ∉ removed) (toArray st)
       ∧ length r.1 = length st - Z.of_nat (List.length removed)
       ∧ ∀ e, e ∈ removed ↔
           ∃ c, Some c ∈ l ∧ get st (Some (ByCell c)) = Some e).
Proof.
  split; [|split; [|split]].
  - intros entry Hg. unfold remove, removeCells. cbn [entities_of foldl].
    rewrite removeCells_each_skip by done. simpl. by rewrite andb_false_r.
  - intros c cell Hg. cbn zeta. unfold remove, removeCells.
    cbn [entities_of foldl].
    destruct (removeCells_each_found (default Options.empty options) st []
      (Some c) cell Hg) as (Hr & Hm & _).
    destruct (removeCells_each _ _ _) as [st' removed]. simpl in Hr, Hm.
    subst removed. simpl. split; [done|].
    assert (map st' !! Cell.id cell = None) as Hnone.
    { rewrite Hm. apply lookup_delete_eq. }
    by destruct (_ && _).
  - intros l. cbn zeta. unfold remove, removeCells. cbn [entities_of].
    destruct (removeCells_fold (default Options.empty options) st l st [])
      as (Heq & new & Hnew & Hlen & Hall & _); [done|].
    rewrite <- Heq.
    destruct (foldl _ _ l) as [st' removed]. simpl in Hnew, Hall.
    subst removed. split; [done|]. exists new. simpl.
    split; [done|]. split; [done|].
    eapply Forall_impl; [exact Hall|]. intros e (c & Hc & Hg & Hnone).
    exists c. split; [done|]. split; [done|].
    by destruct (_ && _).
  - intros Hb l. cbn zeta. unfold remove, removeCells, toArray.
    cbn [entities_of]. apply consistent_bijection in Hb.
    destruct (removeCells_fold_exact (default Options.empty options) l st []
      Hb) as (Hr & Hcells & Hl).
    destruct (foldl _ _ l) as [st' removed]. simpl in Hr, Hcells, Hl.
    subst removed.
    split; [done|]. split; [by destruct (_ && _)|].
    split; [by destruct (_ && _)|].
    intros e. rewrite elem_of_first_occurrences, list_elem_of_omap. split.
    + intros (entry & Hin & Hres). destruct entry as [c|]; [|done].
      by exists c.
    + intros (c & Hin & Hg). by exists (Some c).
Qed.

(** *** Merging into a member *)

(** Adding, with [merge], a cell whose id is present and whose store is
    another object: the member's store is updated in place with the data
    of the incoming store and the third argument of [add]; the member is
    recorded as merged, nothing is added, [map] and [length] are
    unchanged, and [cells] is at most reordered. *)
Lemma add_merge_in_place st c existing index options :
  get st (Some (ByCell c)) = Some existing →
  Options.truthy (Options.merge (add_options index options)) = true →
  Cell.store c ≠ Cell.store existing →
  let st' := add st (One c) index options in
  let loop := add_loop st (One c) index options in
  stores st' (Cell.store existing) =
    store_set (stores st (Cell.store existing))
      (store_get (stores st (Cell.store c))) options
  ∧ (∀ l, l ≠ Cell.store existing → stores st' l = stores st l)
  ∧ al_added loop = [] ∧ al_merged loop = [existing]
  ∧ map st' = map st ∧ length st' = length st ∧ cells st' ≡ₚ cells st
  ∧ events st' =
      events st ++
      if Options.truthy (Options.silent (add_options index options)) then []
      else (if add_sort_flag st (One c) index options then [ESort] else [])
           ++ [EUpdate [] [existing] [] (add_options index options)].
Proof.
  intros Hg Hm Hne. cbn zeta.
  assert (∃ b, add_loop st (One c) index options =
    mkAddLoop
      (store_set_at st (Cell.store existing)
         (store_get (stores st (Cell.store c))) options)
      [] [existing] b) as [b Hloop].
  { unfold add_loop. simpl. unfold add_each. simpl. simpl in Hg.
    rewrite Hg, Hm. rewrite bool_decide_eq_false_2 by done. simpl.
    by eexists. }
  destruct (add_membership st (One c) index options)
    as (Hmap & Hst & _ & Hp & Hl).
  pose proof (add_events_eq st (One c) index options) as Hev.
  cbn zeta in Hev. rewrite Hloop in *. simpl in *.
  rewrite app_nil_r in Hp.
  split; [by rewrite Hst, decide_True|].
  split; [intros l Hl'; by rewrite Hst, decide_False|].
  done.
Qed.

(** *** Where [add] inserts *)

Lemma resolve_index_le (len n : Z) : 0 ≤ len → resolve_index len n ≤ len.
Proof. unfold resolve_index. repeat case_match; lia. Qed.

Lemma add_sort_flag_no_comparator st ca index options :
  comparator st = None → add_sort_flag st ca index options = false.
Proof.
  intros Hcmp. unfold add_sort_flag, add_loop, add_sortable. cbn zeta.
  rewrite Hcmp. simpl. rewrite add_fold_unsortable. by case_match.
Qed.

(** A call that merges nothing writes no store and leaves the flag
    [sort] of the loop unset. *)
Lemma add_fold_unmerged lo o sortable ents (acc : AddLoop Store) :
  let acc' := foldl (add_each lo o sortable) acc ents in
  ∃ mg,
    al_merged acc' = al_merged acc ++ mg
    ∧ (mg = [] →
         al_sort acc' = al_sort acc
         ∧ stores (al_state acc') = stores (al_state acc)).
Proof.
  revert acc. induction ents as [|c ents IH]; intros acc.
  { exists []. by rewrite app_nil_r. }
  cbn zeta. cbn [foldl].
  destruct (IH (add_each lo o sortable acc c)) as (mg & Hmg & Hrest).
  unfold add_each in Hmg, Hrest |- *. simpl in Hmg, Hrest |- *.
  destruct (map (al_state acc) !! Cell.id c) as [existing|].
  - destruct (_ && _).
    + exists (existing :: mg). split.
      * rewrite Hmg. simpl. by rewrite <- app_assoc.
      * done.
    + by exists mg.
  - exists mg. split; [done|]. intros Hnil.
    destruct (Hrest Hnil) as [-> ->]. simpl.
    by destruct (reference_fields (al_state acc) c) as (_ & _ & _ & _ & ? & _).
Qed.

Lemma add_unmerged st ca index options :
  add_merges_nothing st ca index options →
  let loop := add_loop st ca index options in
  al_sort loop = false ∧ stores (al_state loop) = stores st.
Proof.
  unfold add_merges_nothing, add_loop. cbn zeta. intros Hm.
  destruct (add_fold_unmerged (add_options index options) options
    (add_sortable st index (add_options index options)) (entities_of ca)
    (mkAddLoop st [] [] false)) as (mg & Hmg & Hrest).
  rewrite Hm in Hmg. simpl in Hmg. subst mg. by apply Hrest.
Qed.

Lemma add_sort_flag_unmerged st ca index options :
  add_merges_nothing st ca index options →
  add_sort_flag st ca index options =
    add_sortable st index (add_options index options)
    && bool_decide (al_added (add_loop st ca index options) ≠ []).
Proof.
  intros Hm. destruct (add_unmerged st ca index options Hm) as [Hs _].
  unfold add_sort_flag. cbn zeta. rewrite Hs.
  destruct (al_added _); simpl.
  - by rewrite andb_false_r.
  - by rewrite andb_true_r; destruct (add_sortable _ _ _).
Qed.

(** Without [merge], and for new cells with distinct ids, [add] merges
    nothing. *)
Lemma add_fold_merged_without_merge lo o sortable ents
    (acc : AddLoop Store) :
  Options.truthy (Options.merge lo) = false →
  al_merged (foldl (add_each lo o sortable) acc ents) = al_merged acc.
Proof.
  intros Hm. revert acc. induction ents as [|c ents IH]; intros acc; [done|].
  cbn [foldl]. rewrite IH. unfold add_each. simpl. rewrite Hm. simpl.
  by destruct (map _ !! _).
Qed.

Lemma add_merges_nothing_without_merge st ca index options :
  Options.truthy (Options.merge (add_options index options)) = false →
  add_merges_nothing st ca index options.
Proof.
  intros Hm. unfold add_merges_nothing, add_loop.
  by rewrite add_fold_merged_without_merge.
Qed.

(** C5, as the code has it.  The cells added by [add] are spliced into
    [cells] at a position within [[0, length]].  An explicit index above
    [length] is clamped to [length]; an index in [[0, length]] is the
    position; a negative index down to [-(length + 1)] is taken relative
    to [length + 1], so that [-1] appends after the last cell and [-2]
    inserts before the last cell.  Without an index the cells are
    appended at [length].  In a call that merges nothing the other cells
    keep their order and the added cells stay where they were spliced in
    unless the call sorts, which it does neither with an explicit index
    nor without a comparator. *)
Theorem add_insert_position st ca index options :
  length st = Z.of_nat (List.length (cells st)) →
  let p := insert_position st index in
  let spliced :=
    take (Z.to_nat p) (cells st)
    ++ al_added (add_loop st ca index options)
    ++ drop (Z.to_nat p) (cells st) in
  0 ≤ p ≤ length st
  ∧ match index with
    | Index n =>
        (length st < n → p = length st)
        ∧ (0 ≤ n ≤ length st → p = n)
        ∧ (- (length st + 1) ≤ n < 0 → p = n + (length st + 1))
    | _ => p = length st
    end
  ∧ (add_merges_nothing st ca index options →
       add_sort_flag st ca index options = false →
       cells (add st ca index options) = spliced)
  ∧ (add_merges_nothing st ca index options →
       index ≠ NoIndex ∨ comparator st = None →
       cells (add st ca index options) = spliced).
Proof.
  intros Hlen. cbn zeta.
  assert (add_sort_flag st ca index options = false →
    cells (add st ca index options) =
      take (Z.to_nat (insert_position st index)) (cells st)
      ++ al_added (add_loop st ca index options)
      ++ drop (Z.to_nat (insert_position st index)) (cells st)) as Hcells.
  { intros Hflag. by rewrite add_cells_unsorted. }
  unfold insert_position in *. rewrite <- Hlen in *.
  split; [apply splice_start_range; lia|]. split; [|split].
  - unfold JsArray.splice_start, resolve_index.
    destruct index as [|n|o]; simpl.
    + rewrite Z.ltb_irrefl. repeat case_match; lia.
    + split; [|split]; intros Hn; repeat case_match; lia.
    + rewrite Z.ltb_irrefl. repeat case_match; lia.
  - intros _ Hflag. by apply Hcells.
  - intros _ [Hi|Hcmp]; apply Hcells.
    + by apply add_sort_flag_index.
    + by apply add_sort_flag_no_comparator.
Qed.

(** *** The events of [add] *)

(** C6, as the code has it.  A non-silent [add] that merges nothing logs,
    in this order: one [add] event per added cell, carrying the resolved
    index of the call plus the offset of the cell among the added cells;
    a [sort] event if the call sorted the collection, which it does when
    a comparator is configured, the call has no second argument, its
    [sort] option is not [false] and a cell was added; and, if a cell was
    added, one [update] event with the added cells and no merged or
    removed cell.  The added cells are, in input order, the entries whose
    id was not present.  When the call did not sort and the resolved
    index is not negative, the index an [add] event carries is the
    position of its cell in [cells]. *)
Theorem add_event_sequence st ca index options :
  length st = Z.of_nat (List.length (cells st)) →
  Options.truthy (Options.silent (add_options index options)) = false →
  add_merges_nothing st ca index options →
  let loop := add_loop st ca index options in
  let lo := add_options index options in
  let li := resolve_index (length st) (add_index st index) in
  let st' := add st ca index options in
  let sorted := add_sort_flag st ca index options in
  events st' =
    events st
    ++ add_events li lo (al_added loop)
    ++ (if sorted then [ESort] else [])
    ++ match al_added loop with
       | [] => []
       | _ => [EUpdate (al_added loop) [] [] lo]
       end
  ∧ sorted = add_sortable st index lo && bool_decide (al_added loop ≠ [])
  ∧ al_added loop `sublist_of` entities_of ca
  ∧ (∀ e, e ∈ entities_of ca →
       (map st !! Cell.id e = None ↔ Cell.id e ∈ Cell.id <$> al_added loop))
  ∧ (sorted = false → 0 ≤ li →
       ∀ (i : nat) c, al_added loop !! i = Some c →
         cells st' !! Z.to_nat (li + Z.of_nat i) = Some c).
Proof.
  intros Hlen Hsilent Hmerge. cbn zeta.
  destruct (add_loop_added st ca index options)
    as (Hsub & _ & Hnone & _ & Hcov).
  split; [|split; [by apply add_sort_flag_unmerged|split; [done|split]]].
  - pose proof (add_events_eq st ca index options) as Hev. cbn zeta in Hev.
    rewrite Hsilent, Hmerge in Hev. rewrite Hev.
    by destruct (al_added _).
  - intros e He. split; [by apply Hcov|].
    intros (e' & Hid & He')%list_elem_of_fmap. rewrite Hid. by apply Hnone.
  - intros Hflag Hli i c Hi. rewrite add_cells_unsorted by done. cbn zeta.
    pose proof (resolve_index_le (length st) (add_index st index)) as Hle.
    set (li := resolve_index _ _) in *.
    assert (insert_position st index = li) as ->.
    { unfold insert_position, JsArray.splice_start. fold li.
      rewrite <- Hlen. destruct (Z.ltb_spec li 0); lia. }
    rewrite lookup_app_r; rewrite length_take; [|lia].
    replace (Z.to_nat (li + Z.of_nat i) - Z.to_nat li `min` _)%nat
      with i by lia.
    by apply lookup_app_l_Some.
Qed.

(** *** The events of [reset] *)



End CollectionFacts.

(** * The properties on the sample collections *)

Section Samples.

Import Sample.

(** The invariant on a sequence of operations from the collection [[a; b]]. *)
Lemma bijection_invariant_witness :
  bijection ab
  ∧ bijection
      (foldl run ab
         [OpAdd (Many [c; a']) (Index (-5)) None; OpPop None;
          OpReset (Many [b; c; b]) None; OpShift None;
          OpRemove (Many [Some a; None; Some c]) None;
          OpPush a None; OpUnshift c None; OpSort None]).
Proof.
  assert (bijection ab) as Hab by apply new_bijection.
  split; [exact Hab|]. exact (bijection_invariant _ ab Hab).
Defined.

(** Adding [a'], which has the id of the member [a], changes nothing. *)
Lemma add_existing_without_merge_witness :
  get ab (Some (ByCell a')) = Some a
  ∧ Options.truthy (Options.merge (add_options (Index 0) None)) = false
  ∧ add ab (One a') (Index 0) None = ab.
Proof.
  assert (get ab (Some (ByCell a')) = Some a) as Hg by reflexivity.
  assert (Options.truthy (Options.merge (add_options (Index 0) None)) = false)
    as Hm by reflexivity.
  split; [exact Hg|]. split; [exact Hm|].
  exact (proj1 (add_existing_without_merge ab a' a (Index 0) None Hg Hm)).
Defined.

(** [at(-2)] on the collection [[a; b]] is its first cell. *)
Lemma at_wraps_negative_index_witness :
  length ab = Z.of_nat (List.length (cells ab))
  ∧ at_ ab (- length ab) = first ab.
Proof.
  assert (length ab = Z.of_nat (List.length (cells ab))) as Hlen
    by reflexivity.
  split; [exact Hlen|].
  exact (proj1 (proj2 (at_wraps_negative_index ab Hlen))).
Defined.

(** [pop] and [shift] on the empty collection. *)
Lemma pop_shift_empty_witness :
  cells empty = []
  ∧ pop empty None = (empty, RemovedOne None)
  ∧ shift empty None = (empty, RemovedOne None).
Proof.
  assert (cells empty = []) as Hc by reflexivity.
  split; [exact Hc|].
  exact (proj2 (proj2 (pop_shift_empty empty None Hc))).
Defined.

(** Sorting [[a; b; c]] by [zIndex] gives [[b; a; c]]. *)
Lemma sort_stable_ascending_witness :
  comparator abc_by_zIndex = Some (ByKey "zIndex")
  ∧ key_paths (ByKey "zIndex" : Comparator Store) = Some ["zIndex"]
  ∧ cells (sort abc_by_zIndex None) ≡ₚ cells abc_by_zIndex
  ∧ cells (sort abc_by_zIndex None) = [b; a; c].
Proof.
  assert (comparator abc_by_zIndex = Some (ByKey "zIndex")) as Hcmp
    by reflexivity.
  assert (key_paths (ByKey "zIndex" : Comparator Store) = Some ["zIndex"])
    as Hp by reflexivity.
  split; [exact Hcmp|]. split; [exact Hp|]. split; [|reflexivity].
  exact (proj1 (proj2 (sort_stable_ascending abc_by_zIndex None)
    (ByKey "zIndex") ["zIndex"] Hcmp Hp)).
Defined.

(** Removing [c], which is not a member of [[a; b]], and removing the
    array [[c; a'; null; a]], of which only the member [a] is removed. *)
Lemma remove_skips_absent_witness :
  get ab (ByCell <$> Some c) = None
  ∧ remove ab (One (Some c)) None = (ab, RemovedOne None)
  ∧ bijection ab
  ∧ (remove ab (Many [Some c; Some a'; None; Some a]) None).2
      = RemovedMany [a].
Proof.
  assert (get ab (ByCell <$> Some c) = None) as Hg by reflexivity.
  assert (bijection ab) as Hb by apply new_bijection.
  split; [exact Hg|].
  split; [exact (proj1 (remove_skips_absent ab None) (Some c) Hg)|].
  split; [exact Hb|].
  etransitivity;
    [exact (proj1 (proj2 (proj2 (proj2 (remove_skips_absent ab None))) Hb
       [Some c; Some a'; None; Some a]))|].
  vm_compute. reflexivity.
Defined.

(** Adding [c] at index [-2] to [[a; b]] inserts it before [b]. *)
Lemma add_insert_position_witness :
  length ab = Z.of_nat (List.length (cells ab))
  ∧ add_merges_nothing ab (One c) (Index (-2)) None
  ∧ 0 ≤ insert_position ab (Index (-2)) ≤ length ab
  ∧ insert_position ab (Index (-2)) = 1
  ∧ cells (add ab (One c) (Index (-2)) None) = [a; c; b].
Proof.
  assert (length ab = Z.of_nat (List.length (cells ab))) as Hlen
    by reflexivity.
  assert (add_merges_nothing ab (One c) (Index (-2)) None) as Hm
    by (vm_compute; reflexivity).
  pose proof (add_insert_position ab (One c) (Index (-2)) None Hlen)
    as (Hrange & Hcases & _ & Hcells).
  split; [exact Hlen|]. split; [exact Hm|]. split; [exact Hrange|].
  split.
  - apply (proj2 (proj2 Hcases)).
    vm_compute. split; [discriminate|reflexivity].
  - assert (Index (-2) ≠ NoIndex) as Hi by discriminate.
    etransitivity; [exact (Hcells Hm (or_introl Hi))|].
    vm_compute. reflexivity.
Defined.

(** The events of adding [[c; a'; c]] at index [1] to [[a; b]]. *)
Lemma add_event_sequence_witness :
  length ab = Z.of_nat (List.length (cells ab))
  ∧ Options.truthy (Options.silent (add_options (Index 1) None)) = false
  ∧ add_merges_nothing ab (Many [c; a'; c]) (Index 1) None
  ∧ events (add ab (Many [c; a'; c]) (Index 1) None) =
      [EAdd c 1 (add_options (Index 1) None);
       EUpdate [c] [] [] (add_options (Index 1) None)]
  ∧ cells (add ab (Many [c; a'; c]) (Index 1) None) !! 1%nat = Some c.
Proof.
  assert (length ab = Z.of_nat (List.length (cells ab))) as Hlen
    by reflexivity.
  assert (Options.truthy (Options.silent (add_options (Index 1) None)) = false)
    as Hs by reflexivity.
  assert (add_merges_nothing ab (Many [c; a'; c]) (Index 1) None) as Hm
    by (vm_compute; reflexivity).
  pose proof (add_event_sequence ab (Many [c; a'; c]) (Index 1) None Hlen Hs
    Hm) as (Hev & _ & _ & _ & Hpos).
  split; [exact Hlen|]. split; [exact Hs|]. split; [exact Hm|].
  split.
  - etransitivity; [exact Hev|]. vm_compute. reflexivity.
  - assert (add_sort_flag ab (Many [c; a'; c]) (Index 1) None = false)
      as Hflag by (vm_compute; reflexivity).
    assert (0 ≤ resolve_index (length ab) (add_index ab (Index 1))) as Hli
      by (vm_compute; discriminate).
    assert (al_added (add_loop ab (Many [c; a'; c]) (Index 1) None) !! 0%nat
      = Some c) as Hc by (vm_compute; reflexivity).
    etransitivity; [|exact (Hpos Hflag Hli 0%nat c Hc)].
    vm_compute. reflexivity.
Defined.


(** C5 as stated fails: on the collection [[a; b]], adding [c] at index
    [-1] puts [c] after the last cell [b], not before it. *)
Lemma add_index_minus_one_counterexample :
  cells (add ab (One c) (Index (-1)) None) = [a; b; c]
  ∧ cells (add ab (One c) (Index (-1)) None) ≠ [a; c; b].
Proof. split; [reflexivity|]. intros H. vm_compute in H. discriminate. Qed.

(** C6 as stated fails: with a comparator, adding [[a; b]] to an empty
    collection logs an [add] event for [a] with index [0], while [a] is at
    position [1] once the call has sorted the cells. *)
Lemma add_event_position_counterexample :
  let st' := add empty_sorted (Many [a; b]) NoIndex None in
  ¬ (∀ cell index options,
       EAdd cell index options ∈ events st' →
       cells st' !! Z.to_nat index = Some cell).
Proof.
  intros st' H.
  specialize (H a 0 (add_options NoIndex None)).
  assert (cells st' !! Z.to_nat 0 = Some b) as Hb by reflexivity.
  rewrite Hb in H. assert (Some b = Some a) as Heq; [|discriminate].
  apply H. vm_compute. left.
Qed.


(** C3 fails on the two-argument call: [add(a', { merge: true, deep })]
    merges the data of [a'] into the store of the member [a], but the
    store's [set] is given no options; the three-argument call
    [add(a', 0, { merge: true, deep })] passes the bag on. *)
Theorem add_merge_options_not_forwarded :
  let two := add ab (One a') (IndexOptions merge_deep) None in
  let three := add ab (One a') (Index 0) (Some merge_deep) in
  data (stores two 1%nat) = [("zIndex", 5); ("zIndex", 2)]
  ∧ received (stores two 1%nat) = None
  ∧ received (stores three 1%nat) = Some merge_deep
  ∧ events two = [EUpdate [] [a] [] merge_deep].
Proof. cbn zeta. split; [|split; [|split]]; vm_compute; reflexivity. Qed.

End Samples.

(** * Further properties of the collection *)

Section CollectionLaws.

Context {Store Data : Type} `{!CellStore Store Data}.
Implicit Types (st : t Store) (c e : Cell.t) (cs : list Cell.t).
Implicit Types (m : gmap string Cell.t).

(** *** Adding and looking up *)

Lemma add_indexes_input st ca index options e :
  e ∈ entities_of ca →
  is_Some (map (add st ca index options) !! Cell.id e).
Proof.
  intros He.
  destruct (add_membership st ca index options) as (-> & _).
  destruct (add_loop_added st ca index options) as (_ & _ & _ & Hmap & Hcov).
  destruct (map st !! Cell.id e) as [x|] eqn:Hx.
  - exists x. apply Hmap. by left.
  - apply Hcov in Hx as (e' & Hid & He')%list_elem_of_fmap; [|done].
    exists e'. apply Hmap. by right.
Qed.

Lemma add_keeps_members st ca index options id e :
  map st !! id = Some e → map (add st ca index options) !! id = Some e.
Proof.
  intros Hm.
  destruct (add_membership st ca index options) as (-> & _).
  destruct (add_loop_added st ca index options) as (_ & _ & _ & Hmap & _).
  apply Hmap. by left.
Qed.

(** X1.  Every cell passed to [add] can be looked up afterwards, by itself or
    by its id, and every lookup that succeeded before the call still
    yields the same cell: [add] never replaces or drops a member. *)
Theorem add_then_get st ca index options :
  let st' := add st ca index options in
  (∀ e, e ∈ entities_of ca →
     has st' (Some (ByCell e)) = true
     ∧ has st' (Some (ById (Cell.id e))) = true)
  ∧ (∀ k e, get st (Some k) = Some e → get st' (Some k) = Some e).
Proof.
  cbn zeta. split.
  - intros e He.
    destruct (add_indexes_input st ca index options e He) as [x Hx].
    unfold has. simpl. rewrite Hx. by split; apply bool_decide_eq_true_2.
  - intros k e. simpl. apply add_keeps_members.
Qed.

Lemma add_fold_all_present lo o sortable ents (acc : AddLoop Store) :
  Options.truthy (Options.merge lo) = false →
  (∀ e, e ∈ ents → is_Some (map (al_state acc) !! Cell.id e)) →
  foldl (add_each lo o sortable) acc ents = acc.
Proof.
  intros Hm. induction ents as [|c ents IH]; intros Hall; [done|].
  cbn [foldl].
  assert (add_each lo o sortable acc c = acc) as ->.
  { destruct (Hall c) as [x Hx]; [left|].
    unfold add_each. simpl. by rewrite Hx, Hm. }
  apply IH. intros e He. apply Hall. by right.
Qed.

Lemma add_all_present st ca index options :
  Options.truthy (Options.merge (add_options index options)) = false →
  (∀ e, e ∈ entities_of ca → is_Some (map st !! Cell.id e)) →
  add st ca index options = st.
Proof.
  intros Hm Hall. unfold add, add_sort_flag, add_loop. cbn zeta.
  rewrite add_fold_all_present by done. simpl.
  by destruct (negb _).
Qed.

(** X2.  Adding a batch a second time, without [merge], changes nothing at
    all, whatever index and options the second call is given: no cell is
    inserted twice, nothing is reordered and no event is logged. *)
Theorem add_again_is_noop st ca index options index' options' :
  Options.truthy (Options.merge (add_options index' options')) = false →
  add (add st ca index options) ca index' options' =
    add st ca index options.
Proof.
  intros Hm. apply add_all_present; [done|].
  intros e He. by apply add_indexes_input.
Qed.

(** *** Adding new cells *)

Lemma add_fold_fresh lo o sortable ents (acc : AddLoop Store) :
  NoDup (Cell.id <$> ents) →
  (∀ e, e ∈ ents → map (al_state acc) !! Cell.id e = None) →
  al_added (foldl (add_each lo o sortable) acc ents) = al_added acc ++ ents.
Proof.
  revert acc. induction ents as [|c ents IH]; intros acc Hnd Hnew.
  { by rewrite app_nil_r. }
  cbn [foldl]. rewrite fmap_cons in Hnd. apply NoDup_cons in Hnd as [Hc Hnd].
  rewrite (add_each_new lo o sortable acc c) by (apply Hnew; left).
  rewrite IH; [simpl; by rewrite <- app_assoc|done|].
  intros e He. simpl.
  destruct (reference_fields (al_state acc) c) as (_ & _ & -> & _).
  rewrite lookup_insert_ne; [apply Hnew; by right|].
  intros Heq. apply Hc. rewrite Heq. by apply list_elem_of_fmap_2.
Qed.

Lemma add_loop_fresh st ca index options :
  NoDup (Cell.id <$> entities_of ca) →
  (∀ e, e ∈ entities_of ca → get st (Some (ByCell e)) = None) →
  al_added (add_loop st ca index options) = entities_of ca.
Proof. intros Hnd Hnew. unfold add_loop. by rewrite add_fold_fresh. Qed.

Lemma add_fresh_block st ents (n : Z) options :
  length st = Z.of_nat (List.length (cells st)) →
  0 ≤ n ≤ length st →
  NoDup (Cell.id <$> ents) →
  (∀ e, e ∈ ents → get st (Some (ByCell e)) = None) →
  let st' := add st (Many ents) (Index n) options in
  cells st' =
    take (Z.to_nat n) (cells st) ++ ents ++ drop (Z.to_nat n) (cells st)
  ∧ length st' = length st + Z.of_nat (List.length ents).
Proof.
  intros Hlen Hn Hnd Hnew. cbn zeta.
  pose proof (add_loop_fresh st (Many ents) (Index n) options Hnd Hnew)
    as Hadded.
  simpl in Hadded.
  assert (insert_position st (Index n) = n) as Hpos.
  { unfold insert_position, JsArray.splice_start, resolve_index. simpl.
    rewrite <- Hlen. repeat case_match; lia. }
  split.
  - rewrite add_cells_unsorted by (by apply add_sort_flag_index).
    cbn zeta. by rewrite Hpos, Hadded.
  - destruct (add_membership st (Many ents) (Index n) options)
      as (_ & _ & _ & _ & Hl).
    rewrite Hl, Hadded. destruct ents; simpl.
    + lia.
    + rewrite length_app. simpl. lia.
Qed.

(** X3.  A batch of new cells with distinct ids, added at a numeric index [n]
    within [[0, length]], is inserted as one block at [n], in input order:
    the cells before and after keep their order, [length] grows by the
    size of the batch, and [at(n + i)] is the [i]-th cell of the batch. *)
Theorem add_fresh_batch st ents (n : Z) options :
  length st = Z.of_nat (List.length (cells st)) →
  0 ≤ n ≤ length st →
  NoDup (Cell.id <$> ents) →
  (∀ e, e ∈ ents → get st (Some (ByCell e)) = None) →
  let st' := add st (Many ents) (Index n) options in
  toArray st' =
    take (Z.to_nat n) (toArray st) ++ ents ++ drop (Z.to_nat n) (toArray st)
  ∧ length st' = length st + Z.of_nat (List.length ents)
  ∧ ∀ (i : nat) e, ents !! i = Some e → at_ st' (n + Z.of_nat i) = Some e.
Proof.
  intros Hlen Hn Hnd Hnew. cbn zeta. unfold toArray.
  destruct (add_fresh_block st ents n options Hlen Hn Hnd Hnew)
    as [Hcells Hl].
  split; [done|]. split; [done|].
  intros i e Hi. unfold at_, JsArray.nth_z. rewrite Hcells.
  destruct (Z.ltb_spec (n + Z.of_nat i) 0) as [|_]; [lia|].
  destruct (Z.ltb_spec (n + Z.of_nat i) 0) as [|_]; [lia|].
  rewrite lookup_app_r; rewrite length_take; [|lia].
  replace (Z.to_nat (n + Z.of_nat i) - Z.to_nat n `min` _)%nat
    with i by lia.
  by apply lookup_app_l_Some.
Qed.

(** *** Sorting *)

Lemma sorted_cells_le st cmp :
  sorted_cells st cmp = JsArray.stable_sort (comparator_le st cmp) (cells st).
Proof. by destruct cmp. Qed.

Lemma stable_sort_sorted_id {A : Type} (le : A → A → bool) (l : list A) :
  StronglySorted (λ a b, le a b = true) l → JsArray.stable_sort le l = l.
Proof.
  induction 1 as [|x l Hs IH Hall]; [done|]. simpl. rewrite IH.
  destruct l as [|y l]; [done|]. simpl.
  apply Forall_cons in Hall as [-> _]. done.
Qed.

(** A consistent comparison function orders by [comparefn a b <= 0]
    totally and transitively. *)
Lemma consistent_comparison_le {A : Type} (comparefn : A → A → Z) :
  JsArray.consistent_comparison comparefn →
  (∀ x y, (comparefn x y <=? 0) = true ∨ (comparefn y x <=? 0) = true)
  ∧ (∀ x y z, (comparefn x y <=? 0) = true → (comparefn y z <=? 0) = true →
       (comparefn x z <=? 0) = true).
Proof.
  intros (Hrefl & Hsym & Heq & Hlt & Hgt).
  assert (∀ x y, comparefn x y > 0 → comparefn y x < 0) as Hanti.
  { intros x y Hab.
    destruct (Z.lt_trichotomy (comparefn y x) 0) as [H|[H|H]]; [done|..].
    - apply Hsym in H. lia.
    - pose proof (Hgt x y x Hab ltac:(lia)) as Haa. rewrite Hrefl in Haa. lia. }
  split.
  - intros x y. destruct (Z.leb_spec (comparefn x y) 0) as [|Hab]; [by left|].
    right. apply Z.leb_le. pose proof (Hanti x y ltac:(lia)). lia.
  - intros x y z Hab Hbc. apply Z.leb_le in Hab, Hbc. apply Z.leb_le.
    destruct (Z.le_gt_cases (comparefn x z) 0) as [|Hac]; [done|].
    exfalso. pose proof (Hanti x z ltac:(lia)) as Hca.
    destruct (Z.eq_dec (comparefn x y) 0) as [Hab0|Hab0],
      (Z.eq_dec (comparefn y z) 0) as [Hbc0|Hbc0].
    + pose proof (Heq x y z Hab0 Hbc0). lia.
    + pose proof (Hlt y z x ltac:(lia) Hca) as Hba.
      pose proof (Hsym x y Hab0). lia.
    + pose proof (Hlt z x y Hca ltac:(lia)) as Hcb.
      pose proof (Hsym y z Hbc0). lia.
    + pose proof (Hlt x y z ltac:(lia) ltac:(lia)). lia.
Qed.

(** The order of a consistent comparator is total and transitive. *)
Lemma consistent_comparator_le st cmp :
  consistent_comparator st cmp →
  (∀ x y, comparator_le st cmp x y = true ∨ comparator_le st cmp y x = true)
  ∧ (∀ x y z, comparator_le st cmp x y = true →
       comparator_le st cmp y z = true → comparator_le st cmp x z = true).
Proof.
  destruct cmp as [f|key|keys]; cbn [consistent_comparator comparator_le].
  - apply consistent_comparison_le.
  - intros _. split; [intros; apply lex_leb_total|].
    intros x y z. apply lex_leb_trans. unfold sort_keys.
    by rewrite !length_fmap.
  - intros _. split; [intros; apply lex_leb_total|].
    intros x y z. apply lex_leb_trans. unfold sort_keys.
    by rewrite !length_fmap.
Qed.

(** X5.  With a comparator that is consistent in the sense of the language
    (a key comparator, or a comparison function that is reflexive and
    symmetric on ties and transitive on each of its three outcomes),
    sorting a second time changes nothing: the order [sort] produces is a
    fixed point of [sort]. *)
Theorem sort_twice st cmp options options' :
  comparator st = Some cmp →
  consistent_comparator st cmp →
  toArray (sort (sort st options) options') = toArray (sort st options).
Proof.
  intros Hcmp [Htotal Htrans]%consistent_comparator_le. unfold toArray.
  assert (∀ st1 o, comparator st1 = Some cmp →
    cells (sort st1 o) = sorted_cells st1 cmp) as Hsort.
  { intros st1 o H1. unfold sort. rewrite H1. by destruct (negb _). }
  assert (comparator (sort st options) = Some cmp
    ∧ stores (sort st options) = stores st) as [Hcmp' Hst].
  { unfold sort. rewrite Hcmp. by destruct (negb _). }
  rewrite (Hsort _ options' Hcmp'), (Hsort _ options Hcmp).
  rewrite !sorted_cells_le, (Hsort _ options Hcmp), sorted_cells_le.
  assert (comparator_le (sort st options) cmp = comparator_le st cmp) as ->.
  { unfold comparator_le, sort_keys. by rewrite Hst. }
  apply stable_sort_sorted_id. by apply stable_sort_sorted.
Qed.

(** X6.  [sort] only reorders: whatever the comparator, the cells afterwards
    are a permutation of the cells before, and [map], [length], the
    stores and every lookup are unchanged. *)
Theorem sort_only_reorders st options :
  let st' := sort st options in
  toArray st' ≡ₚ toArray st
  ∧ map st' = map st
  ∧ length st' = length st
  ∧ stores st' = stores st
  ∧ ∀ k, get st' k = get st k.
Proof.
  cbn zeta. unfold sort, toArray.
  destruct (comparator st) as [cmp|]; [|done].
  pose proof (sorted_cells_perm st cmp).
  by destruct (negb _).
Qed.

(** *** Adding with a comparator *)

Lemma add_fold_no_merge lo o sortable ents (acc : AddLoop Store) :
  Options.truthy (Options.merge lo) = false →
  let acc' := foldl (add_each lo o sortable) acc ents in
  stores (al_state acc') = stores (al_state acc)
  ∧ al_merged acc' = al_merged acc.
Proof.
  intros Hm. revert acc. induction ents as [|c ents IH]; intros acc; [done|].
  cbn [foldl]. cbn zeta in IH.
  destruct (IH (add_each lo o sortable acc c)) as [-> ->].
  unfold add_each. simpl. rewrite Hm. simpl.
  destruct (map _ !! _); [done|].
  by destruct (reference_fields (al_state acc) c) as (_ & _ & _ & _ & ? & _).
Qed.

Lemma add_cells_sorted st ca index options cmp :
  comparator st = Some cmp →
  add_sort_flag st ca index options = true →
  let loop := add_loop st ca index options in
  let p := Z.to_nat (insert_position st index) in
  cells (add st ca index options) =
    JsArray.stable_sort
      (comparator_le (al_state loop) cmp)
      (take p (cells st) ++ al_added loop ++ drop p (cells st)).
Proof.
  intros Hcmp Hflag. cbn zeta. unfold add. cbn zeta. rewrite Hflag.
  destruct (add_loop_frame st ca index options) as (_ & Hcells & Hc & _).
  set (loop := add_loop st ca index options) in *.
  set (st1 := match al_added loop with [] => al_state loop | _ => _ end).
  assert (cells st1 =
    take (Z.to_nat (insert_position st index)) (cells st) ++ al_added loop
    ++ drop (Z.to_nat (insert_position st index)) (cells st)
    ∧ comparator st1 = Some cmp
    ∧ stores st1 = stores (al_state loop)) as (Hc1 & Hcmp1 & Hs1).
  { subst st1. destruct (al_added loop) as [|x added] eqn:Ha; simpl.
    - by rewrite take_drop, Hc, Hcmp.
    - by rewrite Hcells, splice_insert, Hc, Hcmp. }
  clearbody st1. rewrite sort_silent by done. rewrite Hcmp1.
  assert (sorted_cells st1 cmp = JsArray.stable_sort
    (comparator_le (al_state loop) cmp)
    (take (Z.to_nat (insert_position st index)) (cells st) ++ al_added loop
     ++ drop (Z.to_nat (insert_position st index)) (cells st))) as <-.
  { rewrite sorted_cells_le, Hc1. f_equal.
    unfold comparator_le, sort_keys. by rewrite Hs1. }
  destruct (negb _); [|done]. rewrite foldl_trigger.
  by destruct (al_added loop), (al_merged loop).
Qed.

(** X4.  On a collection with a comparator that is consistent in the
    sense of the language, [add] without a second argument and without
    [merge] that inserts at least one new cell leaves the members and the
    new cells in ascending order of the comparator, cells that compare
    equal staying in the order they had in the old sequence followed by
    the new cells, and logs a [sort] event. *)
Theorem add_sorts_with_comparator st ca options cmp e :
  length st = Z.of_nat (List.length (cells st)) →
  comparator st = Some cmp →
  consistent_comparator st cmp →
  e ∈ entities_of ca →
  get st (Some (ByCell e)) = None →
  let st' := add st ca NoIndex options in
  let appended := toArray st ++ al_added (add_loop st ca NoIndex options) in
  toArray st' ≡ₚ appended
  ∧ StronglySorted (λ a b, comparator_le st cmp a b = true) (toArray st')
  ∧ (∀ k,
       filter (λ x, comparator_le st cmp k x = true
                    ∧ comparator_le st cmp x k = true) (toArray st') =
       filter (λ x, comparator_le st cmp k x = true
                    ∧ comparator_le st cmp x k = true) appended)
  ∧ ESort ∈ events st'.
Proof.
  intros Hlen Hcmp [Htotal Htrans]%consistent_comparator_le He Hnew.
  cbn zeta. unfold toArray.
  destruct (add_loop_added st ca NoIndex options) as (_ & _ & _ & _ & Hcov).
  specialize (Hcov e He Hnew).
  assert (add_sortable st NoIndex (add_options NoIndex options) = true)
    as Hsortable.
  { unfold add_sortable. rewrite Hcmp. done. }
  assert (add_sort_flag st ca NoIndex options = true) as Hflag.
  { unfold add_sort_flag. rewrite Hsortable.
    destruct (al_added _); [|done]. by apply elem_of_nil in Hcov. }
  assert (stores (al_state (add_loop st ca NoIndex options)) = stores st)
    as Hstores.
  { unfold add_loop. by apply add_fold_no_merge. }
  assert (cells (add st ca NoIndex options) =
    JsArray.stable_sort (comparator_le st cmp)
      (cells st ++ al_added (add_loop st ca NoIndex options))) as Hcells.
  { rewrite (add_cells_sorted st ca NoIndex options cmp Hcmp Hflag).
    cbn zeta.
    assert (insert_position st NoIndex = length st) as ->.
    { unfold insert_position, JsArray.splice_start, resolve_index. simpl.
      rewrite <- Hlen. repeat case_match; lia. }
    rewrite Hlen, Nat2Z.id, firstn_all, drop_all, app_nil_r.
    f_equal. unfold comparator_le, sort_keys. by rewrite Hstores. }
  rewrite Hcells. split; [apply stable_sort_perm|].
  split; [by apply stable_sort_sorted|]. split.
  - intros k. apply stable_sort_filter. intros x y [_ Hxk] [Hky _].
    by apply (Htrans x k y).
  - pose proof (add_events_eq st ca NoIndex options) as Hev.
    cbn zeta in Hev. rewrite Hflag in Hev. simpl in Hev. rewrite Hev.
    rewrite !elem_of_app. right. right. left.
Qed.

(** *** Removing a member *)

Lemma remove_one_fields st c cell options :
  get st (Some (ByCell c)) = Some cell →
  let o := default Options.empty options in
  let r := remove st (One (Some c)) options in
  r.2 = RemovedOne (Some cell)
  ∧ map r.1 = delete (Cell.id cell) (map st)
  ∧ cells r.1 =
      JsArray.splice (cells st) (JsArray.indexOf (cells st) cell) 1 []
  ∧ length r.1 = length st - 1
  ∧ comparator r.1 = comparator st
  ∧ stores r.1 = stores st
  ∧ events r.1 =
      events st ++
      if Options.truthy (Options.silent o) then []
      else [ERemove cell (JsArray.indexOf (cells st) cell) o;
            EUpdate [] [] [cell] o].
Proof.
  intros Hg. cbn zeta. unfold remove, removeCells. cbn [entities_of foldl].
  destruct (removeCells_each_found (default Options.empty options) st []
    (Some c) cell Hg) as (Hr & Hm & Hc & Hl & Hcmp & Hs & He).
  destruct (removeCells_each _ _ _) as [st' removed]. simpl in *.
  subst removed. simpl. rewrite andb_true_r.
  destruct (Options.truthy _); simpl; rewrite ?He, <- ?app_assoc; done.
Qed.

Lemma remove_absent st entry options :
  get st (ByCell <$> entry) = None →
  remove st (One entry) options = (st, RemovedOne None).
Proof.
  intros Hg. unfold remove, removeCells. cbn [entities_of foldl].
  rewrite removeCells_each_skip by done. simpl. by rewrite andb_false_r.
Qed.

(** X7.  Removing a member takes exactly that cell out: the other cells keep
    their order, [length] drops by one, the id no longer resolves, and
    every other lookup is unchanged. *)
Theorem remove_member st c cell options :
  bijection st →
  get st (Some (ByCell c)) = Some cell →
  let r := remove st (One (Some c)) options in
  r.2 = RemovedOne (Some cell)
  ∧ toArray r.1 = filter (λ e, e ≠ cell) (toArray st)
  ∧ length r.1 = length st - 1
  ∧ has r.1 (Some (ByCell c)) = false
  ∧ ∀ id, id ≠ Cell.id c → get r.1 (Some (ById id)) = get st (Some (ById id)).
Proof.
  intros Hb Hg. cbn zeta. unfold toArray.
  destruct (remove_one_fields st c cell options Hg)
    as (Hr & Hm & Hc & Hl & _).
  apply consistent_bijection in Hb as (Hnd & Hmap & Hlen).
  simpl in Hg. pose proof Hg as Hg'. apply Hmap in Hg' as [Hin Hid].
  destruct (indexOf_elem (cells st) cell Hin) as (i & Hi & Hlook).
  pose proof (lookup_lt_Some _ _ _ Hlook).
  split; [done|]. split; [|split; [done|split]].
  - rewrite Hc, Hi, splice_delete by done.
    apply delete_filter_ne; [|done]. by apply NoDup_fmap_1 in Hnd.
  - unfold has. simpl. rewrite Hm, Hid, lookup_delete_eq.
    apply bool_decide_eq_false_2. intros Hn. by apply Hn.
  - intros id Hne. simpl. rewrite Hm, Hid. by apply lookup_delete_ne.
Qed.

(** X8.  A non-silent removal of a member logs exactly two events: a [remove]
    event carrying the position the cell had before it was taken out, then
    an [update] event listing it as removed.  A silent one logs nothing. *)
Theorem remove_member_events st c cell options :
  bijection st →
  get st (Some (ByCell c)) = Some cell →
  let o := default Options.empty options in
  let r := remove st (One (Some c)) options in
  ∃ i : nat,
    toArray st !! i = Some cell
    ∧ events r.1 =
        events st ++
        if Options.truthy (Options.silent o) then []
        else [ERemove cell (Z.of_nat i) o; EUpdate [] [] [cell] o].
Proof.
  intros Hb Hg. cbn zeta. unfold toArray.
  destruct (remove_one_fields st c cell options Hg)
    as (_ & _ & _ & _ & _ & _ & He).
  apply consistent_bijection in Hb as (Hnd & Hmap & Hlen).
  simpl in Hg. apply Hmap in Hg as [Hin Hid].
  destruct (indexOf_elem (cells st) cell Hin) as (i & Hi & Hlook).
  exists i. split; [done|]. by rewrite He, Hi.
Qed.

(** *** The events of a batch removal *)

Lemma removeCells_fold_events o ents st removed :
  let r := foldl (removeCells_each o) (st, removed) ents in
  ∃ new idxs,
    r.2 = removed ++ new
    ∧ List.length idxs = List.length new
    ∧ events r.1 =
        events st ++
        if Options.truthy (Options.silent o) then []
        else zip_with (λ cell i, ERemove cell i o) new idxs.
Proof.
  revert st removed. induction ents as [|entry ents IH]; intros st removed.
  { exists [], []. simpl. destruct (Options.truthy _); by rewrite !app_nil_r. }
  cbn zeta. cbn [foldl].
  destruct (get st (ByCell <$> entry)) as [cell|] eqn:Hg.
  - destruct (removeCells_each_found o st removed entry cell Hg)
      as (Hr & _ & _ & _ & _ & _ & He).
    destruct (removeCells_each o (st, removed) entry) as [st' removed'].
    simpl in Hr, He. subst removed'.
    destruct (IH st' (removed ++ [cell])) as (new & idxs & Hnew & Hlen & Hev).
    exists (cell :: new), (JsArray.indexOf (cells st) cell :: idxs).
    split; [by rewrite Hnew, <- app_assoc|]. split; [simpl; lia|].
    rewrite Hev, He, <- app_assoc. by destruct (Options.truthy _).
  - rewrite removeCells_each_skip by done. apply IH.
Qed.

(** X9.  A non-silent [remove] of an array logs one [remove] event per cell
    actually removed, in removal order, and then one [update] event
    listing all of them; when nothing was removed it logs nothing. *)
Theorem remove_batch_events st l options :
  let o := default Options.empty options in
  let r := remove st (Many l) options in
  ∃ removed idxs,
    r.2 = RemovedMany removed
    ∧ List.length idxs = List.length removed
    ∧ events r.1 =
        events st ++
        if Options.truthy (Options.silent o) then []
        else zip_with (λ cell i, ERemove cell i o) removed idxs
             ++ match removed with
                | [] => []
                | _ => [EUpdate [] [] removed o]
                end.
Proof.
  cbn zeta. unfold remove, removeCells. cbn [entities_of].
  destruct (removeCells_fold_events (default Options.empty options) l st [])
    as (new & idxs & Hnew & Hlen & Hev).
  destruct (foldl _ _ l) as [st' removed]. simpl in Hnew, Hev. subst removed.
  exists new, idxs. split; [done|]. split; [done|].
  destruct (Options.truthy _); simpl.
  - by rewrite Hev.
  - destruct new; simpl; rewrite Hev.
    + by rewrite !app_nil_r.
    + by rewrite <- app_assoc.
Qed.

(** *** Silence *)

Lemma remove_events_silent st ca o :
  Options.truthy (Options.silent o) = true →
  events (remove st ca (Some o)).1 = events st.
Proof.
  intros Ho. unfold remove, removeCells.
  destruct (removeCells_fold_events (default Options.empty (Some o))
    (entities_of ca) st []) as (new & idxs & _ & _ & Hev).
  destruct (foldl _ _ _) as [st' removed]. simpl in *. rewrite Ho in *.
  simpl in *. by rewrite Hev, app_nil_r.
Qed.

Lemma add_events_silent st ca index options :
  Options.truthy (Options.silent (add_options index options)) = true →
  events (add st ca index options) = events st.
Proof.
  intros Hs. pose proof (add_events_eq st ca index options) as Hev.
  cbn zeta in Hev. by rewrite Hs, app_nil_r in Hev.
Qed.

Lemma reset_events_silent st ca o :
  Options.truthy (Options.silent o) = true →
  events (reset st ca (Some o)) = events st.
Proof.
  intros Ho. unfold reset. simpl. rewrite Ho. simpl.
  rewrite add_events_silent.
  - by destruct (reset_cleaned st) as (_ & _ & _ & ? & _).
  - simpl. by destruct (Options.silent o) as [| |[]].
Qed.

(** X10.  With a truthy [silent] in its options, [remove], [pop], [shift]
    and [sort] log no event, whatever they do to the collection; and so
    do [add] (in both forms), [reset], [push] and [unshift] when the
    options do not ask for [merge], so that no store of a member is
    written during the call. *)
Theorem silent_logs_nothing st o :
  Options.truthy (Options.silent o) = true →
  ((∀ ca, events (remove st ca (Some o)).1 = events st)
   ∧ events (pop st (Some o)).1 = events st
   ∧ events (shift st (Some o)).1 = events st
   ∧ events (sort st (Some o)) = events st)
  ∧ (Options.truthy (Options.merge o) = false →
     (∀ ca n, add_merges_nothing st ca (Index n) (Some o)
              ∧ events (add st ca (Index n) (Some o)) = events st)
     ∧ (∀ ca, add_merges_nothing st ca (IndexOptions o) None
              ∧ events (add st ca (IndexOptions o) None) = events st)
     ∧ (∀ ca, events (reset st ca (Some o)) = events st)
     ∧ (∀ c, events (push st c (Some o)) = events st)
     ∧ (∀ c, events (unshift st c (Some o)) = events st)).
Proof.
  intros Ho.
  assert (∀ ca index options,
    add_options index options = Options.spread_merge_false (Some o) →
    events (add st ca index options) = events st) as Hadd.
  { intros ca index options Heq. apply add_events_silent.
    rewrite Heq. simpl. by rewrite Ho. }
  split.
  - split; [intros; by apply remove_events_silent|].
    split; [by apply remove_events_silent|].
    split; [by apply remove_events_silent|].
    by apply sort_events_silent.
  - intros Hm.
    assert (∀ ca index options,
      add_options index options = Options.spread_merge_false (Some o) →
      add_merges_nothing st ca index options) as Hnone.
    { intros ca index options Heq. unfold add_merges_nothing, add_loop.
      apply add_fold_no_merge. rewrite Heq. simpl.
      by destruct (Options.merge o) as [| |[]]. }
    split; [intros; split; [by apply Hnone|by apply Hadd]|].
    split; [intros; split; [by apply Hnone|by apply Hadd]|].
    split; [intros; by apply reset_events_silent|].
    split; intros; by apply Hadd.
Qed.

(** *** First and last *)

(** X11.  [first()] is the head of [toArray()] and [last()] is its final
    element; both are [null] exactly on an empty sequence. *)
Theorem first_last_of_array st :
  length st = Z.of_nat (List.length (cells st)) →
  first st = head (toArray st) ∧ last st = list.last (toArray st).
Proof.
  intros Hlen. unfold first, last, at_, JsArray.nth_z, toArray. simpl. split.
  - by rewrite head_lookup.
  - rewrite last_lookup, Hlen. destruct (cells st) as [|x l]; [done|].
    destruct (Z.ltb_spec (-1 + Z.of_nat (List.length (x :: l))) 0) as [|_].
    { simpl in *. lia. }
    f_equal. simpl. lia.
Qed.

(** *** Push and pop, unshift and shift *)

Lemma add_one_fresh st c (n : Z) options :
  bijection st →
  0 ≤ n ≤ length st →
  get st (Some (ByCell c)) = None →
  let st' := add st (One c) (Index n) options in
  cells st' = take (Z.to_nat n) (cells st) ++ [c] ++ drop (Z.to_nat n) (cells st)
  ∧ length st' = length st + 1
  ∧ map st' = <[Cell.id c := c]> (map st)
  ∧ c ∉ cells st.
Proof.
  intros Hb Hn Hnew. cbn zeta.
  apply consistent_bijection in Hb as (Hnd & Hmap & Hlen).
  change (add st (One c) (Index n) options)
    with (add st (Many [c]) (Index n) options).
  destruct (add_fresh_block st [c] n options Hlen Hn) as [Hc Hl].
  { simpl. apply NoDup_singleton. }
  { by intros e ->%list_elem_of_singleton. }
  split; [done|]. split; [done|]. split.
  - destruct (add_membership st (Many [c]) (Index n) options) as (-> & _).
    unfold add_loop. simpl. rewrite add_each_new by done. simpl.
    by destruct (reference_fields st c) as (_ & _ & ? & _).
  - intros Hin. simpl in Hnew.
    assert (map st !! Cell.id c = Some c) by (by apply Hmap). congruence.
Qed.

Lemma at_nonneg st (i : Z) : 0 ≤ i → at_ st i = cells st !! Z.to_nat i.
Proof.
  intros Hi. unfold at_, JsArray.nth_z.
  destruct (Z.ltb_spec i 0) as [|_]; [lia|].
  by destruct (Z.ltb_spec i 0) as [|_]; [lia|].
Qed.

Lemma indexOf_snoc_fresh (l : list Cell.t) (x : Cell.t) :
  x ∉ l → JsArray.indexOf (l ++ [x]) x = Z.of_nat (List.length l).
Proof.
  induction l as [|y l IH]; intros Hx; simpl.
  - by rewrite decide_True.
  - apply not_elem_of_cons in Hx as [Hne Hx].
    rewrite decide_False by done. rewrite IH by done.
    destruct (Z.ltb_spec (Z.of_nat (List.length l)) 0); lia.
Qed.

(** X12.  Pushing a new cell puts it last, and popping right afterwards hands
    that very cell back and restores the sequence, the index and the
    length. *)
Theorem push_then_pop st c options options' :
  bijection st →
  get st (Some (ByCell c)) = None →
  let st1 := push st c options in
  let r := pop st1 options' in
  toArray st1 = toArray st ++ [c]
  ∧ last st1 = Some c
  ∧ r.2 = RemovedOne (Some c)
  ∧ toArray r.1 = toArray st
  ∧ map r.1 = map st
  ∧ length r.1 = length st.
Proof.
  intros Hb Hnew. cbn zeta. unfold toArray, push.
  pose proof Hb as (_ & _ & Hlen & _).
  destruct (add_one_fresh st c (length st) options Hb) as (Hc' & Hl & Hm & Hnin);
    [lia|done|].
  set (st1 := add st (One c) (Index (length st)) options) in *.
  assert (cells st1 = cells st ++ [c]) as Hc.
  { rewrite Hc'. by rewrite take_ge, drop_ge by lia. }
  clear Hc'.
  assert (cells st1 !! List.length (cells st) = Some c) as Hlook.
  { by rewrite Hc, lookup_app_r, Nat.sub_diag. }
  assert (at_ st1 (length st1 - 1) = Some c) as Hpop.
  { rewrite at_nonneg by lia. rewrite <- Hlook. f_equal. lia. }
  assert (last st1 = Some c) as Hlast.
  { unfold last, at_. simpl. unfold JsArray.nth_z.
    destruct (Z.ltb_spec (-1 + length st1) 0) as [|_]; [lia|].
    rewrite <- Hlook. f_equal. lia. }
  split; [done|]. split; [done|].
  unfold pop. rewrite Hpop.
  destruct (remove_one_fields st1 c c options')
    as (Hr & Hm' & Hc' & Hl' & _).
  { simpl. rewrite Hm. apply lookup_insert_eq. }
  split; [done|]. split; [|split].
  - rewrite Hc', Hc, indexOf_snoc_fresh by done.
    rewrite splice_delete by (rewrite length_app; simpl; lia).
    by rewrite delete_take_drop, take_app_length, drop_ge,
      app_nil_r by (rewrite length_app; simpl; lia).
  - rewrite Hm', Hm, delete_insert_eq. by apply delete_id.
  - rewrite Hl', Hl. lia.
Qed.

(** X13.  Unshifting a new cell puts it first, and shifting right afterwards
    hands that very cell back and restores the sequence, the index and
    the length. *)
Theorem unshift_then_shift st c options options' :
  bijection st →
  get st (Some (ByCell c)) = None →
  let st1 := unshift st c options in
  let r := shift st1 options' in
  toArray st1 = c :: toArray st
  ∧ first st1 = Some c
  ∧ r.2 = RemovedOne (Some c)
  ∧ toArray r.1 = toArray st
  ∧ map r.1 = map st
  ∧ length r.1 = length st.
Proof.
  intros Hb Hnew. cbn zeta. unfold toArray, unshift.
  pose proof Hb as (_ & _ & Hlen & _).
  destruct (add_one_fresh st c 0 options Hb) as (Hc & Hl & Hm & Hnin);
    [lia|done|].
  simpl in Hc. rewrite drop_0 in Hc.
  set (st1 := add st (One c) (Index 0) options) in *.
  assert (at_ st1 0 = Some c) as Hat.
  { unfold at_, JsArray.nth_z. simpl. by rewrite Hc. }
  split; [done|]. split; [done|].
  unfold shift. rewrite Hat.
  destruct (remove_one_fields st1 c c options')
    as (Hr & Hm' & Hc' & Hl' & _).
  { simpl. rewrite Hm. apply lookup_insert_eq. }
  split; [done|]. split; [|split].
  - rewrite Hc', Hc. simpl. rewrite decide_True by done.
    apply (splice_delete (c :: cells st) 0). simpl. lia.
  - rewrite Hm', Hm, delete_insert_eq. by apply delete_id.
  - rewrite Hl', Hl. lia.
Qed.

(** *** Replacing the content *)

Lemma reset_fields st ca options :
  let o := default Options.empty options in
  let index := IndexOptions (Options.spread_silent_true o) in
  let loop := add_loop (cleared st) ca index None in
  cells (reset st ca options) = al_added loop
  ∧ map (reset st ca options) = map (al_state loop)
  ∧ length (reset st ca options) = Z.of_nat (List.length (al_added loop))
  ∧ comparator (reset st ca options) = comparator st.
Proof.
  cbn zeta. set (o := default Options.empty options).
  set (index := IndexOptions _).
  destruct (reset_cleaned st) as (Hl0 & Hc0 & Hm0 & _ & Hcmp0).
  destruct (add_membership (cleared st) ca index None)
    as (Hm & _ & Hcmp & _ & Hl).
  pose proof (add_cells_unsorted (cleared st) ca index None) as Hc.
  rewrite add_sort_flag_index in Hc by done. specialize (Hc eq_refl).
  cbn zeta in Hc. rewrite Hc0, take_nil, drop_nil, app_nil_r in Hc.
  rewrite Hc0, Hl0 in Hl. simpl in Hl.
  assert (length (add (cleared st) ca index None)
    = Z.of_nat (List.length (al_added (add_loop (cleared st) ca index None))))
    as Hl'.
  { rewrite Hl. by destruct (al_added _). }
  unfold reset. fold o index. rewrite <- Hcmp0, <- Hcmp.
  by destruct (negb _).
Qed.

Lemma add_fold_added_indep lo o sortable lo' o' sortable' ents
    (acc acc' : AddLoop Store) :
  map (al_state acc) = map (al_state acc') →
  al_added acc = al_added acc' →
  let r := foldl (add_each lo o sortable) acc ents in
  let r' := foldl (add_each lo' o' sortable') acc' ents in
  map (al_state r) = map (al_state r') ∧ al_added r = al_added r'.
Proof.
  revert acc acc'. induction ents as [|c ents IH]; intros acc acc' Hm Ha;
    [done|].
  cbn zeta. cbn [foldl]. apply IH.
  - destruct (map (al_state acc) !! Cell.id c) as [x|] eqn:Hx.
    + destruct (add_each_existing lo o sortable acc c x Hx) as [_ ->].
      rewrite Hm in Hx.
      by destruct (add_each_existing lo' o' sortable' acc' c x Hx) as [_ ->].
    + rewrite (add_each_new lo o sortable acc c Hx). rewrite Hm in Hx.
      rewrite (add_each_new lo' o' sortable' acc' c Hx). simpl.
      destruct (reference_fields (al_state acc) c) as (_ & _ & -> & _).
      destruct (reference_fields (al_state acc') c) as (_ & _ & -> & _).
      by rewrite Hm.
  - destruct (map (al_state acc) !! Cell.id c) as [x|] eqn:Hx.
    + destruct (add_each_existing lo o sortable acc c x Hx) as [-> _].
      rewrite Hm in Hx.
      by destruct (add_each_existing lo' o' sortable' acc' c x Hx) as [-> _].
    + rewrite (add_each_new lo o sortable acc c Hx). rewrite Hm in Hx.
      rewrite (add_each_new lo' o' sortable' acc' c Hx). simpl.
      by rewrite Ha.
Qed.

(** X14.  What [reset] leaves as members depends on the new content only: the
    cells held before, the options of the call and the comparator play no
    part in the resulting sequence, index and length. *)
Theorem reset_forgets_previous st st' ca options options' :
  toArray (reset st ca options) = toArray (reset st' ca options')
  ∧ map (reset st ca options) = map (reset st' ca options')
  ∧ length (reset st ca options) = length (reset st' ca options').
Proof.
  unfold toArray.
  destruct (reset_fields st ca options) as (-> & -> & -> & _).
  destruct (reset_fields st' ca options') as (-> & -> & -> & _).
  unfold add_loop.
  match goal with
  | |- context [foldl (add_each ?lo ?o ?s) ?acc ?ents] =>
      match goal with
      | |- context [foldl (add_each ?lo' ?o' ?s') (mkAddLoop (cleared st') ?a ?b ?f) ents] =>
          destruct (add_fold_added_indep lo o s lo' o' s' ents acc
            (mkAddLoop (cleared st') a b f)) as [Hm Ha]
      end
  end.
  - reflexivity.
  - reflexivity.
  - cbn zeta in Hm, Ha. by rewrite Hm, Ha.
Qed.

Lemma reset_distinct st ca options :
  NoDup (Cell.id <$> entities_of ca) →
  cells (reset st ca options) = entities_of ca
  ∧ length (reset st ca options) = Z.of_nat (List.length (entities_of ca))
  ∧ ∀ e, e ∈ entities_of ca → map (reset st ca options) !! Cell.id e = Some e.
Proof.
  intros Hnd.
  destruct (reset_fields st ca options) as (-> & Hm & -> & _).
  destruct (reset_cleaned st) as (_ & _ & Hm0 & _).
  rewrite add_loop_fresh; [|done|].
  2: { intros e _. change (map (cleared st) !! Cell.id e = None).
       by rewrite Hm0. }
  split; [done|]. split; [done|].
  intros e He. rewrite Hm.
  match goal with
  | |- map (al_state (add_loop ?s ?c ?i ?o)) !! _ = _ =>
      destruct (add_loop_added s c i o) as (_ & _ & _ & Hmap & _);
      pose proof (add_loop_fresh s c i o Hnd) as Hadded
  end.
  apply Hmap. right. rewrite Hadded; [done|].
  intros e' _. change (map (cleared st) !! Cell.id e' = None).
  by rewrite Hm0.
Qed.

(** X15.  [reset] with cells of distinct ids installs exactly these cells, in
    the order given and without sorting them, whatever the comparator;
    each of them can be looked up afterwards, and [length] is their
    number.  In particular an empty array empties the collection. *)
Theorem reset_installs_input st ca options :
  NoDup (Cell.id <$> entities_of ca) →
  let st' := reset st ca options in
  toArray st' = entities_of ca
  ∧ length st' = Z.of_nat (List.length (entities_of ca))
  ∧ ∀ e, e ∈ entities_of ca → get st' (Some (ByCell e)) = Some e.
Proof. intros Hnd. by apply reset_distinct. Qed.

(** *** Construction and cloning *)

Lemma new_fields h ca cmp :
  let st := new h (Some ca) cmp : t Store in
  events st = []
  ∧ comparator st =
      match cmp with
      | Some (ByKey EmptyString) => None
      | _ => cmp
      end
  ∧ (NoDup (Cell.id <$> entities_of ca) →
       cells st = entities_of ca
       ∧ length st = Z.of_nat (List.length (entities_of ca))).
Proof.
  cbn zeta. unfold new. split; [|split].
  - by rewrite reset_events_silent.
  - by destruct (reset_fields (clean (mk 0 [] ∅
      match cmp with Some (ByKey EmptyString) => None | _ => cmp end
      h [] [])) ca (Some Options.silently))
      as (_ & _ & _ & ->).
  - intros Hnd.
    match goal with
    | |- cells (reset ?s ?c ?o) = _ ∧ _ =>
        by destruct (reset_distinct s c o Hnd) as (? & ? & _)
    end.
Qed.

(** X16.  A collection constructed from cells of distinct ids holds exactly
    these cells in the order given, without sorting them even when a
    comparator is configured; it satisfies the invariants of the data
    model and has logged no event. *)
Theorem new_installs_input h ca cmp :
  NoDup (Cell.id <$> entities_of ca) →
  let st := new h (Some ca) cmp : t Store in
  toArray st = entities_of ca
  ∧ length st = Z.of_nat (List.length (entities_of ca))
  ∧ bijection st
  ∧ events st = [].
Proof.
  intros Hnd. cbn zeta.
  destruct (new_fields h ca cmp) as (Hev & _ & Hc).
  destruct (Hc Hnd) as [Hcells Hl].
  split; [done|]. split; [done|]. split; [apply new_bijection|done].
Qed.

(** X17.  The clone of a collection has the same cells in the same order, the
    same index and length and the same comparator (an empty string
    comparator becomes none), and starts with an empty event log; the
    cells are not re-sorted. *)
Theorem clone_same_members st :
  bijection st →
  let st' := clone st in
  toArray st' = toArray st
  ∧ map st' = map st
  ∧ length st' = length st
  ∧ events st' = []
  ∧ comparator st' =
      match comparator st with
      | Some (ByKey EmptyString) => None
      | _ => comparator st
      end.
Proof.
  intros Hb. cbn zeta. unfold clone, toArray.
  apply consistent_bijection in Hb. pose proof Hb as (Hnd & _ & Hlen).
  destruct (new_fields (stores st) (Many (cells st)) (comparator st))
    as (Hev & Hcmp & Hc).
  destruct (Hc Hnd) as [Hcells Hl].
  pose proof (new_consistent (stores st) (Some (Many (cells st)))
    (comparator st)) as Hcons. cbn zeta in Hcons.
  split; [done|]. split; [|split; [by rewrite Hl|done]].
  rewrite (consistent_map_eq _ _ _ Hcons), (consistent_map_eq _ _ _ Hb).
  by rewrite Hcells.
Qed.

(** *** Disposal *)

(** X18.  When a cell announces its disposal the collection removes the member
    with that id, logging one [remove] and one [update] event; a [null]
    cell, or a cell whose id is not present, leaves the collection as it
    is. *)
Theorem dispose_removes_member st :
  bijection st →
  onCellDisposed st None = st
  ∧ (∀ c, get st (Some (ByCell c)) = None → onCellDisposed st (Some c) = st)
  ∧ ∀ c cell, get st (Some (ByCell c)) = Some cell →
      let st' := onCellDisposed st (Some c) in
      has st' (Some (ByCell c)) = false
      ∧ toArray st' = filter (λ e, e ≠ cell) (toArray st)
      ∧ ∃ i : nat,
          toArray st !! i = Some cell
          ∧ events st' =
              events st ++
              [ERemove cell (Z.of_nat i) Options.empty;
               EUpdate [] [] [cell] Options.empty].
Proof.
  intros Hb. split; [done|]. split.
  - intros c Hg. unfold onCellDisposed.
    by rewrite (remove_absent st (Some c) None Hg).
  - intros c cell Hg. cbn zeta. unfold onCellDisposed, toArray.
    destruct (remove_one_fields st c cell None Hg)
      as (_ & Hm & Hc & _ & _ & _ & He).
    apply consistent_bijection in Hb as (Hnd & Hmap & Hlen).
    simpl in Hg. apply Hmap in Hg as [Hin Hid].
    destruct (indexOf_elem (cells st) cell Hin) as (i & Hi & Hlook).
    pose proof (lookup_lt_Some _ _ _ Hlook).
    split; [|split].
    + unfold has. simpl. rewrite Hm, Hid, lookup_delete_eq.
      apply bool_decide_eq_false_2. intros Hn. by apply Hn.
    + rewrite Hc, Hi, splice_delete by done.
      apply delete_filter_ne; [|done]. by apply NoDup_fmap_1 in Hnd.
    + exists i. split; [done|]. by rewrite He, Hi.
Qed.

(** *** Removing everything *)

Lemma removeCells_all o (l : list Cell.t) st removed :
  cells st = l →
  consistent (length st) (cells st) (map st) →
  let r := foldl (removeCells_each o) (st, removed) (Some <$> l) in
  r.2 = removed ++ l ∧ cells r.1 = [] ∧ length r.1 = 0 ∧ map r.1 = ∅.
Proof.
  revert st removed. induction l as [|x l IH]; intros st removed Hl Hc.
  { simpl. rewrite app_nil_r. destruct Hc as (_ & Hmap & Hlen).
    rewrite Hl in *. split; [done|]. split; [done|]. split; [done|].
    apply map_empty. intros i. apply eq_None_not_Some. intros [e He].
    apply Hmap in He as [?%elem_of_nil _]. done. }
  cbn zeta. rewrite fmap_cons. cbn [foldl].
  assert (get st (ByCell <$> Some x) = Some x) as Hg.
  { simpl. apply Hc. split; [|done]. rewrite Hl. left. }
  pose proof (removeCells_each_consistent o st removed (Some x) Hc) as Hc'.
  destruct (removeCells_each_found o st removed (Some x) x Hg)
    as (Hr & _ & Hcells & _).
  destruct (removeCells_each o (st, removed) (Some x)) as [st' removed'].
  simpl in Hr, Hcells, Hc'. subst removed'.
  destruct (IH st' (removed ++ [x])) as (Hr' & Hrest); [|done|].
  - rewrite Hcells, Hl. simpl. rewrite decide_True by done.
    apply (splice_delete (x :: l) 0). simpl. lia.
  - split; [|done]. by rewrite Hr', <- app_assoc.
Qed.

(** X19.  Removing all the cells of a collection, in sequence order, returns
    exactly these cells and leaves the collection empty. *)
Theorem remove_all_empties st options :
  bijection st →
  let r := remove st (Many (Some <$> toArray st)) options in
  r.2 = RemovedMany (toArray st)
  ∧ toArray r.1 = []
  ∧ length r.1 = 0
  ∧ map r.1 = ∅.
Proof.
  intros Hb. cbn zeta. unfold toArray, remove, removeCells.
  cbn [entities_of]. apply consistent_bijection in Hb.
  destruct (removeCells_all (default Options.empty options) (cells st) st []
    eq_refl Hb) as (Hr & Hc & Hl & Hm).
  destruct (foldl _ _ _) as [st' removed]. simpl in *. subst removed.
  split; [done|]. by destruct (_ && _).
Qed.

(** *** Merging a cell into itself *)

(** X20.  Adding a cell whose id is present and whose store is the very
    store of the member (the member itself, for one) changes nothing, even
    with [merge]: the store is not written, nothing is recorded as merged
    and no event is logged. *)
Theorem add_same_store_is_noop st c existing index options :
  get st (Some (ByCell c)) = Some existing →
  Cell.store c = Cell.store existing →
  add st (One c) index options = st.
Proof.
  intros Hg Hs. unfold add, add_sort_flag, add_loop. simpl.
  unfold add_each. simpl. simpl in Hg. rewrite Hg.
  rewrite (bool_decide_eq_true_2 _ Hs), andb_false_r. simpl.
  destruct (negb _); by destruct st.
Qed.

End CollectionLaws.

(** * The further properties on the sample collections *)

Section MoreSamples.

Import Sample.

(** Adding [[c; a']] to [[a; b]]: both can be looked up afterwards. *)
Lemma add_then_get_witness :
  has (add ab (Many [c; a']) NoIndex None) (Some (ByCell c)) = true
  ∧ get (add ab (Many [c; a']) NoIndex None) (Some (ById "a")) = Some a.
Proof.
  pose proof (add_then_get ab (Many [c; a']) NoIndex None) as [H1 H2].
  assert (c ∈ entities_of (Many [c; a'])) as Hc by (simpl; left).
  assert (get ab (Some (ById "a")) = Some a) as Ha
    by (vm_compute; reflexivity).
  split; [exact (proj1 (H1 c Hc))|exact (H2 (ById "a") a Ha)].
Defined.

(** Adding [[c; d]] to [[a; b]] twice. *)
Lemma add_again_is_noop_witness :
  Options.truthy (Options.merge (add_options (Index 0) None)) = false
  ∧ add (add ab (Many [c; d]) NoIndex None) (Many [c; d]) (Index 0) None =
      add ab (Many [c; d]) NoIndex None.
Proof.
  assert (Options.truthy (Options.merge (add_options (Index 0) None)) = false)
    as Hm by (vm_compute; reflexivity).
  split; [exact Hm|].
  exact (add_again_is_noop ab (Many [c; d]) NoIndex None (Index 0) None Hm).
Defined.

(** Adding [[c; d]] at index [1] of [[a; b]] gives [[a; c; d; b]]. *)
Lemma add_fresh_batch_witness :
  length ab = Z.of_nat (List.length (cells ab))
  ∧ 0 ≤ 1 ≤ length ab
  ∧ NoDup (Cell.id <$> [c; d])
  ∧ toArray (add ab (Many [c; d]) (Index 1) None) = [a; c; d; b].
Proof.
  assert (length ab = Z.of_nat (List.length (cells ab))) as Hlen
    by (vm_compute; reflexivity).
  assert (0 ≤ 1 ≤ length ab) as Hn by (vm_compute; split; discriminate).
  assert (NoDup (Cell.id <$> [c; d])) as Hnd by compute_done.
  assert (∀ e, e ∈ [c; d] → get ab (Some (ByCell e)) = None) as Hnew.
  { intros e He. apply elem_of_cons in He as [->|He]; [vm_compute; reflexivity|].
    apply list_elem_of_singleton in He as ->. vm_compute. reflexivity. }
  split; [exact Hlen|]. split; [exact Hn|]. split; [exact Hnd|].
  rewrite (proj1 (add_fresh_batch ab [c; d] 1 None Hlen Hn Hnd Hnew)).
  vm_compute. reflexivity.
Defined.

(** Adding [d] to [[a; b; c]] under the comparator ["zIndex"]. *)
Lemma add_sorts_with_comparator_witness :
  length abc_by_zIndex = Z.of_nat (List.length (cells abc_by_zIndex))
  ∧ comparator abc_by_zIndex = Some (ByKey "zIndex")
  ∧ consistent_comparator abc_by_zIndex (ByKey "zIndex")
  ∧ get abc_by_zIndex (Some (ByCell d)) = None
  ∧ toArray (add abc_by_zIndex (One d) NoIndex None) ≡ₚ [a; b; c; d]
  ∧ StronglySorted
      (λ x y, comparator_le abc_by_zIndex (ByKey "zIndex") x y = true)
      (toArray (add abc_by_zIndex (One d) NoIndex None))
  ∧ ESort ∈ events (add abc_by_zIndex (One d) NoIndex None)
  ∧ toArray (add abc_by_zIndex (One d) NoIndex None) = [d; b; a; c].
Proof.
  assert (length abc_by_zIndex = Z.of_nat (List.length (cells abc_by_zIndex)))
    as Hlen by (vm_compute; reflexivity).
  assert (comparator abc_by_zIndex = Some (ByKey "zIndex")) as Hcmp
    by (vm_compute; reflexivity).
  assert (consistent_comparator abc_by_zIndex (ByKey "zIndex")) as Hcons
    by exact I.
  assert (d ∈ entities_of (One d)) as Hd by (simpl; left).
  assert (get abc_by_zIndex (Some (ByCell d)) = None) as Hnew
    by (vm_compute; reflexivity).
  assert (toArray (add abc_by_zIndex (One d) NoIndex None) = [d; b; a; c])
    as Hres by (vm_compute; reflexivity).
  assert (toArray abc_by_zIndex
          ++ al_added (add_loop abc_by_zIndex (One d) NoIndex None) =
          [a; b; c; d]) as Happ by (vm_compute; reflexivity).
  destruct (add_sorts_with_comparator abc_by_zIndex (One d) None
    (ByKey "zIndex") d Hlen Hcmp Hcons Hd Hnew) as (Hperm & Hsorted & _ & Hev).
  split; [exact Hlen|]. split; [exact Hcmp|]. split; [exact Hcons|].
  split; [exact Hnew|].
  split; [exact (eq_ind _ (λ l, _ ≡ₚ l) Hperm _ Happ)|].
  split; [exact Hsorted|]. split; [exact Hev|]. exact Hres.
Defined.

(** Sorting [[a; b; c]] by the function comparator twice. *)
Lemma sort_twice_witness :
  comparator abc_by_function = Some (ByFunction by_zIndex)
  ∧ consistent_comparator abc_by_function (ByFunction by_zIndex)
  ∧ toArray (sort (sort abc_by_function None) None) =
      toArray (sort abc_by_function None).
Proof.
  assert (comparator abc_by_function = Some (ByFunction by_zIndex)) as Hcmp
    by (vm_compute; reflexivity).
  assert (consistent_comparator abc_by_function (ByFunction by_zIndex))
    as Hcons by (unfold consistent_comparator, JsArray.consistent_comparison,
                 by_zIndex; repeat split; lia).
  split; [exact Hcmp|]. split; [exact Hcons|].
  exact (sort_twice abc_by_function (ByFunction by_zIndex) None None
           Hcmp Hcons).
Defined.

(** Removing [a'] from [[a; b]] takes the member [a] out. *)
Lemma remove_member_witness :
  bijection ab
  ∧ get ab (Some (ByCell a')) = Some a
  ∧ toArray (remove ab (One (Some a')) None).1 = [b].
Proof.
  assert (bijection ab) as Hb by apply new_bijection.
  assert (get ab (Some (ByCell a')) = Some a) as Hg by (vm_compute; reflexivity).
  split; [exact Hb|]. split; [exact Hg|].
  rewrite (proj1 (proj2 (remove_member ab a' a None Hb Hg))).
  vm_compute. reflexivity.
Defined.

(** The events of removing [b] from [[a; b]]. *)
Lemma remove_member_events_witness :
  bijection ab
  ∧ get ab (Some (ByCell b)) = Some b
  ∧ ∃ i : nat,
      toArray ab !! i = Some b
      ∧ events (remove ab (One (Some b)) None).1 =
          events ab ++
          [ERemove b (Z.of_nat i) Options.empty;
           EUpdate [] [] [b] Options.empty].
Proof.
  assert (bijection ab) as Hb by apply new_bijection.
  assert (get ab (Some (ByCell b)) = Some b) as Hg by (vm_compute; reflexivity).
  split; [exact Hb|]. split; [exact Hg|].
  exact (remove_member_events ab b b None Hb Hg).
Defined.

(** Silent operations on [[a; b]]. *)
Lemma silent_logs_nothing_witness :
  Options.truthy (Options.silent quiet) = true
  ∧ Options.truthy (Options.merge quiet) = false
  ∧ events (reset ab (Many [c; d]) (Some quiet)) = events ab
  ∧ events (pop ab (Some quiet)).1 = events ab.
Proof.
  assert (Options.truthy (Options.silent quiet) = true) as Hq
    by (vm_compute; reflexivity).
  assert (Options.truthy (Options.merge quiet) = false) as Hm
    by (vm_compute; reflexivity).
  destruct (silent_logs_nothing ab quiet Hq) as ((_ & Hpop & _) & Hadd).
  destruct (Hadd Hm) as (_ & _ & Hreset & _).
  split; [exact Hq|]. split; [exact Hm|].
  split; [exact (Hreset (Many [c; d]))|exact Hpop].
Defined.

(** [first()] and [last()] of [[a; b]]. *)
Lemma first_last_of_array_witness :
  length ab = Z.of_nat (List.length (cells ab))
  ∧ first ab = head (toArray ab) ∧ last ab = list.last (toArray ab).
Proof.
  assert (length ab = Z.of_nat (List.length (cells ab))) as Hlen
    by (vm_compute; reflexivity).
  split; [exact Hlen|]. exact (first_last_of_array ab Hlen).
Defined.

(** Pushing [c] onto [[a; b]] and popping. *)
Lemma push_then_pop_witness :
  bijection ab
  ∧ get ab (Some (ByCell c)) = None
  ∧ toArray (push ab c None) = toArray ab ++ [c]
  ∧ (pop (push ab c None) None).2 = RemovedOne (Some c)
  ∧ toArray (pop (push ab c None) None).1 = toArray ab.
Proof.
  assert (bijection ab) as Hb by apply new_bijection.
  assert (get ab (Some (ByCell c)) = None) as Hnew by (vm_compute; reflexivity).
  pose proof (push_then_pop ab c None None Hb Hnew)
    as (H1 & _ & H3 & H4 & _).
  split; [exact Hb|]. split; [exact Hnew|].
  split; [exact H1|]. split; [exact H3|exact H4].
Defined.

(** Unshifting [c] onto [[a; b]] and shifting. *)
Lemma unshift_then_shift_witness :
  bijection ab
  ∧ get ab (Some (ByCell c)) = None
  ∧ toArray (unshift ab c None) = c :: toArray ab
  ∧ (shift (unshift ab c None) None).2 = RemovedOne (Some c)
  ∧ toArray (shift (unshift ab c None) None).1 = toArray ab.
Proof.
  assert (bijection ab) as Hb by apply new_bijection.
  assert (get ab (Some (ByCell c)) = None) as Hnew by (vm_compute; reflexivity).
  pose proof (unshift_then_shift ab c None None Hb Hnew)
    as (H1 & _ & H3 & H4 & _).
  split; [exact Hb|]. split; [exact Hnew|].
  split; [exact H1|]. split; [exact H3|exact H4].
Defined.

(** Resetting the sorted collection [[a; b; c]] to [[c; a]]. *)
Lemma reset_installs_input_witness :
  NoDup (Cell.id <$> entities_of (Many [c; a]))
  ∧ toArray (reset abc_by_zIndex (Many [c; a]) None) = [c; a].
Proof.
  assert (NoDup (Cell.id <$> entities_of (Many [c; a]))) as Hnd
    by compute_done.
  split; [exact Hnd|].
  exact (proj1 (reset_installs_input abc_by_zIndex (Many [c; a]) None Hnd)).
Defined.

(** Constructing a collection from [[c; a; b]] with a comparator. *)
Lemma new_installs_input_witness :
  NoDup (Cell.id <$> entities_of (Many [c; a; b]))
  ∧ toArray (Collection.new heap (Some (Many [c; a; b]))
               (Some (ByKey "zIndex"))) = [c; a; b].
Proof.
  assert (NoDup (Cell.id <$> entities_of (Many [c; a; b]))) as Hnd
    by compute_done.
  split; [exact Hnd|].
  exact (proj1 (new_installs_input heap (Many [c; a; b])
    (Some (ByKey "zIndex")) Hnd)).
Defined.

(** Cloning [[a; b; c]]. *)
Lemma clone_same_members_witness :
  bijection abc_by_zIndex
  ∧ toArray (clone abc_by_zIndex) = toArray abc_by_zIndex
  ∧ map (clone abc_by_zIndex) = map abc_by_zIndex.
Proof.
  assert (bijection abc_by_zIndex) as Hb by apply new_bijection.
  pose proof (clone_same_members abc_by_zIndex Hb) as (H1 & H2 & _).
  split; [exact Hb|]. split; [exact H1|exact H2].
Defined.

(** Disposing [a], a member of [[a; b]]. *)
Lemma dispose_removes_member_witness :
  bijection ab
  ∧ get ab (Some (ByCell a)) = Some a
  ∧ has (onCellDisposed ab (Some a)) (Some (ByCell a)) = false
  ∧ toArray (onCellDisposed ab (Some a)) = [b].
Proof.
  assert (bijection ab) as Hb by apply new_bijection.
  assert (get ab (Some (ByCell a)) = Some a) as Hg by (vm_compute; reflexivity).
  pose proof (proj2 (proj2 (dispose_removes_member ab Hb)) a a Hg)
    as (H1 & H2 & _).
  split; [exact Hb|]. split; [exact Hg|]. split; [exact H1|].
  rewrite H2. vm_compute. reflexivity.
Defined.

(** Removing all the cells of [[a; b; c]]. *)
Lemma remove_all_empties_witness :
  bijection abc_by_zIndex
  ∧ (remove abc_by_zIndex (Many (Some <$> toArray abc_by_zIndex)) None).2
      = RemovedMany [a; b; c]
  ∧ toArray
      (remove abc_by_zIndex (Many (Some <$> toArray abc_by_zIndex)) None).1
      = [].
Proof.
  assert (bijection abc_by_zIndex) as Hb by apply new_bijection.
  pose proof (remove_all_empties abc_by_zIndex None Hb) as (H1 & H2 & _).
  split; [exact Hb|]. split; [|exact H2].
  rewrite H1. vm_compute. reflexivity.
Defined.

(** Adding the member [a] to [[a; b]] again, with [merge]. *)
Lemma add_same_store_is_noop_witness :
  get ab (Some (ByCell a)) = Some a
  ∧ Cell.store a = Cell.store a
  ∧ add ab (One a) (IndexOptions merge_deep) None = ab.
Proof.
  assert (get ab (Some (ByCell a)) = Some a) as Hg
    by (vm_compute; reflexivity).
  split; [exact Hg|]. split; [reflexivity|].
  exact (add_same_store_is_noop ab a a (IndexOptions merge_deep) None Hg
    eq_refl).
Defined.

End MoreSamples.
